(** * html-dnd-js: the gesture controller of [dnd-core.mjs]

    A shallow embedding of the module [src/dnd-core.mjs] and of the part of
    the browser it talks to (timers, the style object of [document.body],
    listener lists, the [observer] event target), followed by the properties
    of the gesture state machine.

    Conventions of the embedding:
    - pixel coordinates are integers; a coordinate that JavaScript leaves
      [undefined] is [None], and arithmetic on it yields [NaN];
    - every function of the module is a function on [World], the record of
      the module's top-level variables together with the host state; a call
      returns a [result] ([Ok] or [Throw]) and the world it leaves behind;
    - [dispatch] records what a listener of [observer] observes at the
      moment of the call, i.e. the contents of the shared [state] object at
      dispatch time ([detail] is the object itself, not a copy); [observer]
      is an [EventTarget]: an exception thrown by one of its listeners is
      reported to the host ([reported]) and [dispatchEvent] returns. *)

From Stdlib Require Import ZArith Lia.
From stdpp Require Import base gmap strings list.

Local Open Scope string_scope.
Local Open Scope list_scope.

(** ** JavaScript data *)

(** What may be stored in [state.props]: [null], [undefined] or user data. *)
Inductive value :=
  | VNull
  | VUndefined
  | VData (id : nat).

(** [v == null] *)
Definition is_nullish (v : value) : bool :=
  match v with
  | VData _ => false
  | _ => true
  end.

(** Numbers held in [state.dx] and [state.dy]. *)
Inductive num :=
  | Num (z : Z)
  | NaN.

(** [a - b] where [a], [b] are coordinates, possibly [undefined]. *)
Definition num_sub (a b : option Z) : num :=
  match a, b with
  | Some p, Some q => Num (p - q)
  | _, _ => NaN
  end.

Definition num_add (a b : num) : num :=
  match a, b with
  | Num p, Num q => Num (p + q)
  | _, _ => NaN
  end.

(** [a < b]; every comparison with [NaN] is false. *)
Definition num_lt (a : num) (b : Z) : bool :=
  match a with
  | Num p => (p <? b)%Z
  | NaN => false
  end.

Global Instance value_eq_dec : EqDecision value.
Proof. solve_decision. Defined.
Global Instance num_eq_dec : EqDecision num.
Proof. solve_decision. Defined.

(** The exported [state] object. *)
Record State := mkState {
  props : value;
  dx : num;
  dy : num;
  canceled : bool
}.

(** The objects [current] and [initial]. *)
Module Coords.
Record t := mk { x : option Z; y : option Z }.
Definition undefined : t := mk None None.
End Coords.

(** A touch point, and the two kinds of event the handlers receive. *)
Record Touch := mkTouch { clientX : Z; clientY : Z }.

Inductive event :=
  | MouseEvent (mouseX mouseY : Z)
  | TouchEvent (touches changedTouches : list Touch).

(** [e instanceof MouseEvent] *)
Definition is_mouse (e : event) : bool :=
  match e with
  | MouseEvent _ _ => true
  | TouchEvent _ _ => false
  end.

Inductive exn :=
  | TypeError (msg : string)
  | Thrown (payload : nat).

Inductive result (A : Type) :=
  | Ok (a : A)
  | Throw (err : exn).
Arguments Ok {A} a.
Arguments Throw {A} err.

(** What the outside observes: notifications on [observer] and calls of
    [preventDefault]. *)
Inductive effect :=
  | Dispatched (type : string) (detail : State)
  | PreventedDefault (e : event).

(** Listeners. [cb_start fn props delay] is the function object number [fn]
    made by [start.bind(null, props, delay)]. *)
Inductive callback :=
  | cb_move
  | cb_drop
  | cb_cancel
  | cb_start (fn : nat) (p : value) (delay : Z).

Record listener := mkListener {
  l_type : string;
  l_callback : callback;
  l_capture : bool
}.

Global Instance callback_eq_dec : EqDecision callback.
Proof. solve_decision. Defined.
Global Instance listener_eq_dec : EqDecision listener.
Proof. solve_decision. Defined.

(** ** The world: module variables and host state *)

Record World := mkWorld {
  (* variables of the module *)
  state : State;
  current : Coords.t;
  initial : Coords.t;
  defer : option nat;
  detach : Z;
  style : list (string * string);
  (* the host *)
  body_style : string -> string;      (* document.body.style, per CSS property *)
  css_alias : string -> string;       (* the property a style key stands for *)
  timers : gmap nat (Z * event);      (* pending timeouts: due time, captured event *)
  next_timer : nat;
  now : Z;
  window_listeners : list listener;
  element_listeners : list (nat * listener);
  next_fn : nat;
  subscriber : string -> State -> option exn;   (* listeners of [observer] *)
  log : list effect;
  reported : list exn                 (* listener exceptions reported by the host *)
}.

Definition with_state (s : State) (w : World) : World :=
  mkWorld s (current w) (initial w) (defer w) (detach w) (style w)
    (body_style w) (css_alias w) (timers w) (next_timer w) (now w)
    (window_listeners w) (element_listeners w) (next_fn w) (subscriber w) (log w) (reported w).

Definition with_current (c : Coords.t) (w : World) : World :=
  mkWorld (state w) c (initial w) (defer w) (detach w) (style w)
    (body_style w) (css_alias w) (timers w) (next_timer w) (now w)
    (window_listeners w) (element_listeners w) (next_fn w) (subscriber w) (log w) (reported w).

Definition with_initial (c : Coords.t) (w : World) : World :=
  mkWorld (state w) (current w) c (defer w) (detach w) (style w)
    (body_style w) (css_alias w) (timers w) (next_timer w) (now w)
    (window_listeners w) (element_listeners w) (next_fn w) (subscriber w) (log w) (reported w).

Definition with_defer (d : option nat) (w : World) : World :=
  mkWorld (state w) (current w) (initial w) d (detach w) (style w)
    (body_style w) (css_alias w) (timers w) (next_timer w) (now w)
    (window_listeners w) (element_listeners w) (next_fn w) (subscriber w) (log w) (reported w).

Definition with_detach (d : Z) (w : World) : World :=
  mkWorld (state w) (current w) (initial w) (defer w) d (style w)
    (body_style w) (css_alias w) (timers w) (next_timer w) (now w)
    (window_listeners w) (element_listeners w) (next_fn w) (subscriber w) (log w) (reported w).

Definition with_styles (s : list (string * string)) (b : string -> string)
    (w : World) : World :=
  mkWorld (state w) (current w) (initial w) (defer w) (detach w) s
    b (css_alias w) (timers w) (next_timer w) (now w)
    (window_listeners w) (element_listeners w) (next_fn w) (subscriber w) (log w) (reported w).

Definition with_timers (t : gmap nat (Z * event)) (n : nat) (w : World) : World :=
  mkWorld (state w) (current w) (initial w) (defer w) (detach w) (style w)
    (body_style w) (css_alias w) t n (now w)
    (window_listeners w) (element_listeners w) (next_fn w) (subscriber w) (log w) (reported w).

Definition with_now (t : Z) (w : World) : World :=
  mkWorld (state w) (current w) (initial w) (defer w) (detach w) (style w)
    (body_style w) (css_alias w) (timers w) (next_timer w) t
    (window_listeners w) (element_listeners w) (next_fn w) (subscriber w) (log w) (reported w).

Definition with_window_listeners (l : list listener) (w : World) : World :=
  mkWorld (state w) (current w) (initial w) (defer w) (detach w) (style w)
    (body_style w) (css_alias w) (timers w) (next_timer w) (now w)
    l (element_listeners w) (next_fn w) (subscriber w) (log w) (reported w).

Definition with_element_listeners (l : list (nat * listener)) (n : nat)
    (w : World) : World :=
  mkWorld (state w) (current w) (initial w) (defer w) (detach w) (style w)
    (body_style w) (css_alias w) (timers w) (next_timer w) (now w)
    (window_listeners w) l n (subscriber w) (log w) (reported w).

Definition with_log (l : list effect) (w : World) : World :=
  mkWorld (state w) (current w) (initial w) (defer w) (detach w) (style w)
    (body_style w) (css_alias w) (timers w) (next_timer w) (now w)
    (window_listeners w) (element_listeners w) (next_fn w) (subscriber w) l (reported w).

Definition with_reported (l : list exn) (w : World) : World :=
  mkWorld (state w) (current w) (initial w) (defer w) (detach w) (style w)
    (body_style w) (css_alias w) (timers w) (next_timer w) (now w)
    (window_listeners w) (element_listeners w) (next_fn w) (subscriber w) (log w) l.

(** A call of a module function: a result and the world left behind. *)
Definition M (A : Type) : Type := World -> result A * World.

(** [try { body } finally { fin }] *)
Definition try_finally {A} (body : M A) (fin : M unit) : M A :=
  fun w =>
    let '(r, w1) := body w in
    match fin w1 with
    | (Ok _, w2) => (r, w2)
    | (Throw err, w2) => (Throw err, w2)
    end.

(** ** Host operations *)

(** [setTimeout(() => {...e...}, delay)]: a fresh identifier; the callback
    becomes runnable [max 0 delay] milliseconds from now. *)
Definition setTimeout (e : event) (delay : Z) (w : World) : nat * World :=
  let id := next_timer w in
  (id, with_timers (<[id := ((now w + Z.max 0 delay)%Z, e)]> (timers w)) (S id) w).

(** [clearTimeout(d)]; [clearTimeout(null)] does nothing. *)
Definition clearTimeout (d : option nat) (w : World) : World :=
  match d with
  | Some id => with_timers (delete id (timers w)) (next_timer w) w
  | None => w
  end.

(** [body.style[key]] and [body.style[key] = v]. *)
Definition style_get (alias : string -> string) (b : string -> string)
    (key : string) : string :=
  b (alias key).

Definition style_set (alias : string -> string) (b : string -> string)
    (key v : string) : string -> string :=
  fun p => if decide (p = alias key) then v else b p.

(** [target.addEventListener]: an identical listener is not added twice. *)
Definition addEventListener {T} `{EqDecision T} (l : T) (ls : list T) : list T :=
  if decide (l ∈ ls) then ls else ls ++ [l].

(** [target.removeEventListener]: type, callback and capture flag must all
    match. *)
Fixpoint removeEventListener {T} `{EqDecision T} (l : T) (ls : list T) : list T :=
  match ls with
  | [] => []
  | l' :: rest =>
      if decide (l = l') then rest else l' :: removeEventListener l rest
  end.

(** ** The module *)

Definition initial_style : list (string * string) :=
  [ ("webkitUserSelect", "none");
    ("MozUserSelect", "none");
    ("msUserSelect", "none");
    ("userSelect", "none") ].

Definition initial_state : State := mkState VNull (Num 0) (Num 0) false.

(** [getPointer(e)] *)
Definition getPointer (e : option event) : option Touch :=
  match e with
  | None => None
  | Some (MouseEvent px py) => Some (mkTouch px py)
  | Some (TouchEvent ts cs) =>
      match ts with
      | p :: _ => Some p
      | [] => head cs
      end
  end.

(** [fill(s, e)], as the new contents of [s]. *)
Definition fill (e : event) : Coords.t :=
  let p := getPointer (Some e) in
  Coords.mk (clientX <$> p) (clientY <$> p).

(** What an event target does with the exception of one of its listeners:
    it reports it to the host and carries on. *)
Definition report (o : option exn) (w : World) : World :=
  match o with
  | Some err => with_reported (reported w ++ [err]) w
  | None => w
  end.

(** [observer.dispatchEvent(new CustomEvent(type, { detail }))]: the
    listeners of [observer] run; what they throw is reported, and the call
    returns normally. *)
Definition dispatchEvent (type : string) (detail : State) : M unit :=
  fun w => (Ok tt, report (subscriber w type detail) w).

(** [dispatch(type)] *)
Definition dispatch (type : string) : M unit :=
  fun w =>
    dispatchEvent type (state w)
      (with_log (log w ++ [Dispatched type (state w)]) w).

(** [toggleUserSelect()] *)
Definition toggleUserSelect (w : World) : World :=
  let body := body_style w in
  let tmp := map (fun kv => (fst kv, style_get (css_alias w) body (fst kv))) (style w) in
  let body' :=
    fold_left (fun b kv => style_set (css_alias w) b (fst kv) (snd kv)) (style w) body in
  with_styles tmp body' w.

(** [cleanup()] *)
Definition cleanup : M unit :=
  fun w =>
    if is_nullish (props (state w)) then (Ok tt, w)
    else
      let w := toggleUserSelect w in
      let w := with_state (mkState VNull (dx (state w)) (dy (state w)) (canceled (state w))) w in
      let w := with_state (mkState (props (state w)) (Num 0) (Num 0) (canceled (state w))) w in
      let w := with_state (mkState (props (state w)) (dx (state w)) (dy (state w)) false) w in
      let w := clearTimeout (defer w) w in
      let w := with_defer None w in
      let w := with_initial Coords.undefined w in
      let w := with_current Coords.undefined w in
      let w := with_detach 2 w in
      (Ok tt, w).

(** [cancel()] *)
Definition cancel : M unit :=
  fun w =>
    if is_nullish (props (state w)) then (Ok tt, w)
    else
      let w := with_state (mkState (props (state w)) (dx (state w)) (dy (state w)) true) w in
      try_finally (dispatch "dnd-drop") cleanup w.

(** [move(e)] *)
Definition move (e : event) : M unit :=
  fun w =>
    if is_nullish (props (state w)) then (Ok tt, w)
    else
      let w := if is_mouse e then w else with_log (log w ++ [PreventedDefault e]) w in
      let w := with_current (fill e) w in
      let w := with_state (mkState (props (state w))
                 (num_sub (Coords.x (current w)) (Coords.x (initial w)))
                 (dy (state w)) (canceled (state w))) w in
      let w := with_state (mkState (props (state w)) (dx (state w))
                 (num_sub (Coords.y (current w)) (Coords.y (initial w)))
                 (canceled (state w))) w in
      match defer w with
      | Some id =>
          if num_lt (num_add (dx (state w)) (dy (state w))) (detach w)
          then (Ok tt, w)
          else dispatch "dnd-drag" (with_defer None (clearTimeout (Some id) w))
      | None => dispatch "dnd-drag" w
      end.

(** [start(props, delay, e)] *)
Definition start (p : value) (delay : Z) (e : event) : M unit :=
  fun w =>
    if negb (is_nullish (props (state w))) then cancel w
    else
      let w := toggleUserSelect w in
      let w := with_state (mkState p (dx (state w)) (dy (state w)) (canceled (state w))) w in
      let w := with_initial (fill e) w in
      let '(id, w) := setTimeout e delay w in
      (Ok tt, with_defer (Some id) w).

(** The callback handed to [setTimeout] by [start]. *)
Definition timeout_callback (e : event) : M unit :=
  fun w => move e (with_defer None w).

(** [drop()] *)
Definition drop : M unit :=
  fun w =>
    if is_nullish (props (state w)) then (Ok tt, w)
    else
      try_finally
        (fun w => match defer w with
                  | None => dispatch "dnd-drop" w
                  | Some _ => (Ok tt, w)
                  end)
        cleanup w.

(** [config]: [undefined], or an object whose two fields may be missing. *)
Inductive jsconfig :=
  | ConfigUndefined
  | ConfigObject (cfg_delay cfg_detach : option Z).

(** [config.delay] and [config.detach]: reading a property of [undefined]
    throws. *)
Definition config_delay (c : jsconfig) : result (option Z) :=
  match c with
  | ConfigUndefined =>
      Throw (TypeError "Cannot read properties of undefined (reading 'delay')")
  | ConfigObject d _ => Ok d
  end.

Definition config_detach (c : jsconfig) : result (option Z) :=
  match c with
  | ConfigUndefined =>
      Throw (TypeError "Cannot read properties of undefined (reading 'detach')")
  | ConfigObject _ t => Ok t
  end.

(** [a ?? b] *)
Definition coalesce {A} (a : option A) (b : A) : A :=
  match a with
  | Some v => v
  | None => b
  end.

(** The closures returned by [init] and [draggable]. *)
Inductive destructor :=
  | Teardown
  | Undraggable (element : nat) (fn : callback).

(** [init()] *)
Definition init : M destructor :=
  fun w =>
    let ls := window_listeners w in
    let ls := addEventListener (mkListener "mousemove" cb_move true) ls in
    let ls := addEventListener (mkListener "mouseup" cb_drop false) ls in
    let ls := addEventListener (mkListener "touchmove" cb_move false) ls in
    let ls := addEventListener (mkListener "touchend" cb_drop false) ls in
    let ls := addEventListener (mkListener "contextmenu" cb_cancel false) ls in
    let ls := addEventListener (mkListener "touchcancel" cb_cancel false) ls in
    let ls := addEventListener (mkListener "touchstart" cb_cancel true) ls in
    (Ok Teardown, with_window_listeners ls w).

(** The function returned by [init]. *)
Definition teardown : M unit :=
  fun w =>
    let ls := window_listeners w in
    let ls := removeEventListener (mkListener "mousemove" cb_move true) ls in
    let ls := removeEventListener (mkListener "mouseup" cb_drop false) ls in
    let ls := removeEventListener (mkListener "touchmove" cb_move false) ls in
    let ls := removeEventListener (mkListener "touchend" cb_drop false) ls in
    let ls := removeEventListener (mkListener "touchstart" cb_cancel false) ls in
    (Ok tt, with_window_listeners ls w).

(** [draggable(props, element, config)] *)
Definition draggable (p : value) (element : nat) (config : jsconfig) : M destructor :=
  fun w =>
    match config_delay config with
    | Throw err => (Throw err, w)
    | Ok d =>
        let delay := coalesce d 50%Z in
        match config_detach config with
        | Throw err => (Throw err, w)
        | Ok t =>
            let w := with_detach (coalesce t (detach w)) w in
            let fn := cb_start (next_fn w) p delay in
            let ls := element_listeners w in
            let ls := addEventListener (element, mkListener "mousedown" fn false) ls in
            let ls := addEventListener (element, mkListener "touchstart" fn false) ls in
            (Ok (Undraggable element fn),
             with_element_listeners ls (S (next_fn w)) w)
        end
    end.

(** The function returned by [draggable]. *)
Definition undraggable (element : nat) (fn : callback) : M unit :=
  fun w =>
    let ls := element_listeners w in
    let ls := removeEventListener (element, mkListener "mousedown" fn false) ls in
    let ls := removeEventListener (element, mkListener "touchstart" fn false) ls in
    (Ok tt, with_element_listeners ls (next_fn w) w).

Definition call_destructor (d : destructor) : M unit :=
  match d with
  | Teardown => teardown
  | Undraggable element fn => undraggable element fn
  end.

(** ** The host drives the module *)

(** Calling a registered listener with an event. *)
Definition invoke (cb : callback) (e : event) : M unit :=
  match cb with
  | cb_move => move e
  | cb_drop => drop
  | cb_cancel => cancel
  | cb_start _ p delay => start p delay e
  end.

(** An event of the given type reaching [window]: the listeners registered
    for it run in order of registration; what a listener throws is reported
    by the host and does not stop the others. *)
Definition window_dispatch (type : string) (e : event) (w : World) : World :=
  fold_left
    (fun w l => if decide (l_type l = type) then snd (invoke (l_callback l) e w) else w)
    (window_listeners w) w.

Inductive input :=
  | Init
  | Attach (p : value) (element : nat) (config : jsconfig)
  | Destroy (d : destructor)
  | PointerDown (p : value) (delay : Z) (e : event)   (* mousedown, touchstart on a surface *)
  | PointerMove (e : event)                           (* mousemove, touchmove *)
  | PointerUp                                         (* mouseup, touchend *)
  | Interrupt                       (* contextmenu, touchcancel, second touchstart *)
  | Elapse (dt : Z)                                   (* time passes *)
  | Timeout (id : nat).                               (* the host runs a due timer *)

Definition forget {A} (r : result A * World) : result unit * World :=
  match r with
  | (Ok _, w) => (Ok tt, w)
  | (Throw err, w) => (Throw err, w)
  end.

(** One step of the host; [None] when the host cannot take it (negative
    time, a timer that is not pending or not yet due). *)
Definition step (i : input) (w : World) : option (result unit * World) :=
  match i with
  | Init => Some (forget (init w))
  | Attach p element config => Some (forget (draggable p element config w))
  | Destroy d => Some (call_destructor d w)
  | PointerDown p delay e => Some (start p delay e w)
  | PointerMove e => Some (move e w)
  | PointerUp => Some (drop w)
  | Interrupt => Some (cancel w)
  | Elapse dt =>
      if decide (0 ≤ dt)%Z then Some (Ok tt, with_now (now w + dt)%Z w) else None
  | Timeout id =>
      match timers w !! id with
      | Some (due, e) =>
          if decide (due ≤ now w)%Z
          then Some (timeout_callback e
                       (with_timers (delete id (timers w)) (next_timer w) w))
          else None
      | None => None
      end
  end.

(** A sequence of steps; an exception ends the step that raised it, not the
    run. *)
Fixpoint run (tr : list input) (w : World) : option World :=
  match tr with
  | [] => Some w
  | i :: tr' =>
      match step i w with
      | Some (_, w') => run tr' w'
      | None => None
      end
  end.

(** The world right after the module is loaded. *)
Definition initial_world (alias body : string -> string)
    (sub : string -> State -> option exn) : World :=
  mkWorld initial_state Coords.undefined Coords.undefined None 2 initial_style
    body alias ∅ 1 0 [] [] 0 sub [] [].

(** ** Vocabulary of the properties *)

Inductive phase := Idle | Pending | Dragging.

Global Instance phase_eq_dec : EqDecision phase.
Proof. solve_decision. Defined.

(** The phase is read off the two variables the handlers branch on. *)
Definition phase_of (w : World) : phase :=
  if is_nullish (props (state w)) then Idle
  else match defer w with
       | Some _ => Pending
       | None => Dragging
       end.

Definition active (w : World) : bool := negb (is_nullish (props (state w))).

(** The notifications among the effects. *)
Definition notifications (l : list effect) : list (string * State) :=
  omap (fun f => match f with
                 | Dispatched type d => Some (type, d)
                 | PreventedDefault _ => None
                 end) l.

(** The shape [cleanup] leaves behind. *)
Definition idle_shape (w : World) : Prop :=
  state w = initial_state ∧ defer w = None ∧ detach w = 2%Z ∧
  initial w = Coords.undefined ∧ current w = Coords.undefined.

(** [w'] is [w] after [cleanup], up to the effects logged meanwhile. *)
Definition cleaned (w w' : World) : Prop :=
  idle_shape w' ∧
  timers w' = timers (clearTimeout (defer w) w) ∧
  next_timer w' = next_timer w ∧
  style w' = style (toggleUserSelect w) ∧
  body_style w' = body_style (toggleUserSelect w) ∧
  css_alias w' = css_alias w ∧
  subscriber w' = subscriber w.

(** The event carries a pointer at the given position. *)
Definition pointer_at (e : event) (px py : Z) : Prop :=
  getPointer (Some e) = Some (mkTouch px py).

(** Inputs that end a gesture (when one is in progress), and inputs that
    never do. *)
Definition terminal (i : input) : bool :=
  match i with
  | PointerUp | Interrupt | PointerDown _ _ _ => true
  | _ => false
  end.

Definition cancelling (i : input) : bool :=
  match i with
  | Interrupt | PointerDown _ _ _ => true
  | _ => false
  end.

(** [w] is a world in the middle of the gesture that began in [w0]. *)
Definition in_gesture (w0 w : World) : Prop :=
  ∃ p delay e tr,
    is_nullish (props (state w0)) = true ∧ is_nullish p = false ∧
    forallb (fun i => negb (terminal i)) tr = true ∧
    run (PointerDown p delay e :: tr) w0 = Some w.

(** Timer identifiers held by the module were handed out by the host. *)
Definition defer_known (w : World) : Prop :=
  ∀ id, defer w = Some id → id < next_timer w.

(** The timer [id] is not pending and its identifier is spent. *)
Definition spent (id : nat) (w : World) : Prop :=
  id < next_timer w ∧ timers w !! id = None.

(** The idle part of the invariant of [state]. *)
Definition idle_zero (w : World) : Prop :=
  is_nullish (props (state w)) = true →
  dx (state w) = Num 0 ∧ dy (state w) = Num 0 ∧ canceled (state w) = false.

(** The gesture state machine, on the inputs alone: whether a gesture is in
    progress after input [i], given whether one was before. A pointer-down
    during a gesture cancels it and starts none; a pointer-down with an
    absent subject starts none. *)
Definition gesture_after (i : input) (before : bool) : bool :=
  match i with
  | PointerDown p _ _ => if before then false else negb (is_nullish p)
  | PointerUp | Interrupt => false
  | _ => before
  end.

(** The detail of the "dnd-drag" notification for a pointer at [(px, py)] in
    a gesture that started at [(x0, y0)]. *)
Definition drag_from (w : World) (x0 y0 : Z) (pt : Z * Z) : string * State :=
  ("dnd-drag",
   mkState (props (state w)) (Num (pt.1 - x0)) (Num (pt.2 - y0)) (canceled (state w))).

(** What the last notification of a gesture carries when input [i] ends it:
    the cancel path sets [canceled] first. *)
Definition drop_detail (i : input) (w : World) : State :=
  if cancelling i
  then mkState (props (state w)) (dx (state w)) (dy (state w)) true
  else state w.

(** Inputs that must find a gesture in progress to do anything. *)
Definition needs_gesture (i : input) : bool :=
  match i with
  | PointerMove _ | PointerUp | Interrupt => true
  | _ => false
  end.

(** The events on which [preventDefault] was called, among the effects. *)
Definition prevented (l : list effect) : list event :=
  omap (fun f => match f with
                 | PreventedDefault e => Some e
                 | Dispatched _ _ => None
                 end) l.

(** Every pointer-down of the trace carries a subject. *)
Definition present_subjects (tr : list input) : bool :=
  forallb (fun i => match i with
                    | PointerDown p _ _ => negb (is_nullish p)
                    | _ => true
                    end) tr.

(** The pending timers are exactly the one the module holds in [defer]. *)
Definition timer_owned (w : World) : Prop :=
  ∀ id, is_Some (timers w !! id) ↔ defer w = Some id.

(** The timer held in [defer] is pending in the host. *)
Definition pending_alive (w : World) : Prop :=
  ∀ id, defer w = Some id → is_Some (timers w !! id).

(** Function objects made by [bind] so far have numbers below [next_fn]. *)
Definition fn_known (w : World) : Prop :=
  ∀ element l fn p delay,
    (element, l) ∈ element_listeners w → l_callback l = cb_start fn p delay →
    fn < next_fn w.

(** A notification a subscriber may receive: one of the two types, about a
    present subject, and flagged [canceled] only if it is a drop. *)
Definition well_formed_notification (n : string * State) : Prop :=
  (n.1 = "dnd-drag" ∨ n.1 = "dnd-drop") ∧
  is_nullish (props n.2) = false ∧
  (canceled n.2 = true → n.1 = "dnd-drop").

(** ** Scenarios *)

Definition quiet : string -> State -> option exn := fun _ _ => None.

Definition failing_drop : string -> State -> option exn :=
  fun type _ => if decide (type = "dnd-drop") then Some (Thrown 7) else None.

(** A browser where [webkitUserSelect] stands for [userSelect]. *)
Definition webkit_alias (key : string) : string :=
  if decide (key = "webkitUserSelect") then "userSelect" else key.

(** A body whose author chose [user-select: text]. *)
Definition custom_body (p : string) : string :=
  if decide (p = "userSelect") then "text" else "".

Definition fresh_world : World := initial_world webkit_alias custom_body quiet.
Definition faulty_world : World := initial_world webkit_alias custom_body failing_drop.

Definition press : input := PointerDown (VData 1) 50 (MouseEvent 0 0).

Definition pending_world : World := default fresh_world (run [press] fresh_world).

Definition dragging_world : World :=
  default fresh_world (run [press; Elapse 50; Timeout 1] fresh_world).

(** Pressed at (0,0), moved to (5,-5) below the threshold, delay elapsed. *)
Definition moved_world : World :=
  default fresh_world
    (run [press; PointerMove (MouseEvent 5 (-5)); Elapse 50] fresh_world).

Definition failing_drag : string -> State -> option exn :=
  fun type _ => if decide (type = "dnd-drag") then Some (Thrown 3) else None.

(** Dragging, with a subscriber that throws on every "dnd-drag". *)
Definition throwing_dragging_world : World :=
  default fresh_world
    (run [press; Elapse 50; Timeout 1]
       (initial_world webkit_alias custom_body failing_drag)).

Definition faulty_dragging_world : World :=
  default faulty_world (run [press; Elapse 50; Timeout 1] faulty_world).

(** * Properties *)

(** ** The style object of the body *)

Section StyleStore.
Variable alias : string -> string.

Lemma write_styles_miss (l : list (string * string)) (b : string -> string) p :
  (∀ kv, kv ∈ l → alias kv.1 ≠ p) →
  fold_left (fun b kv => style_set alias b kv.1 kv.2) l b p = b p.
Proof.
  revert b. induction l as [|[k v] l IH]; intros b Hmiss; simpl; [done|].
  rewrite IH.
  - unfold style_set; simpl. case_decide as Hp; [|done].
    exfalso. apply (Hmiss (k, v)); [left | by rewrite Hp].
  - intros kv Hin. apply Hmiss. by right.
Qed.

Lemma write_styles_hit (l : list (string * string)) (b : string -> string) p c :
  (∀ kv, kv ∈ l → alias kv.1 = p → kv.2 = c) →
  b p = c ∨ (∃ kv, kv ∈ l ∧ alias kv.1 = p) →
  fold_left (fun b kv => style_set alias b kv.1 kv.2) l b p = c.
Proof.
  revert b. induction l as [|[k v] l IH]; intros b Hval Hsrc; simpl.
  - destruct Hsrc as [Hb|(kv & Hin & _)]; [done | by apply elem_of_nil in Hin].
  - apply IH.
    + intros kv Hin. apply Hval. by right.
    + unfold style_set at 1; simpl. case_decide as Hp.
      * left. apply (Hval (k, v)); [left | done].
      * destruct Hsrc as [Hb|(kv & Hin & Hkv)]; [by left|].
        apply elem_of_cons in Hin as [->|Hin]; [by simpl in Hkv | right; eauto].
Qed.

Lemma key_written_dec (l : list (string * string)) p :
  (∃ kv, kv ∈ l ∧ alias kv.1 = p) ∨ (∀ kv, kv ∈ l → alias kv.1 ≠ p).
Proof.
  induction l as [|[k v] l [IH|IH]].
  - right. intros kv Hin. by apply elem_of_nil in Hin.
  - left. destruct IH as (kv & Hin & Hkv). exists kv. split; [by right | done].
  - destruct (decide (alias k = p)) as [Hk|Hk].
    + left. exists (k, v). split; [left | done].
    + right. intros kv Hin. apply elem_of_cons in Hin as [->|Hin]; [done | by apply IH].
Qed.

(** Saving the values of the keys of [l], overwriting them, and writing the
    saved values back leaves every property of the body as it was, whatever
    keys stand for the same property. *)
Lemma write_saved_styles (l : list (string * string)) (b : string -> string) p :
  fold_left (fun b kv => style_set alias b kv.1 kv.2)
    (map (fun kv => (kv.1, style_get alias b kv.1)) l)
    (fold_left (fun b kv => style_set alias b kv.1 kv.2) l b) p = b p.
Proof.
  apply write_styles_hit.
  - intros kv Hin Hkv. apply list_elem_of_fmap in Hin as (kv' & -> & _).
    simpl in *. unfold style_get. by rewrite Hkv.
  - destruct (key_written_dec l p) as [(kv & Hin & Hkv)|Hmiss].
    + right. exists (kv.1, style_get alias b kv.1). split; [|done].
      apply list_elem_of_fmap. eauto.
    + left. by apply write_styles_miss.
Qed.

End StyleStore.

Lemma toggle_restores (w w1 : World) p :
  style w1 = style (toggleUserSelect w) →
  body_style w1 = body_style (toggleUserSelect w) →
  css_alias w1 = css_alias w →
  body_style (toggleUserSelect w1) p = body_style w p.
Proof.
  intros Hs Hb Ha. unfold toggleUserSelect at 1; simpl.
  rewrite Hs, Hb, Ha. simpl. apply write_saved_styles.
Qed.

(** ** The handlers, one by one *)

Lemma cleanup_ok w : (cleanup w).1 = Ok tt.
Proof. unfold cleanup. by destruct (is_nullish _). Qed.

Lemma try_finally_cleanup {A} (body : M A) w :
  try_finally body cleanup w = ((body w).1, (cleanup (body w).2).2).
Proof.
  unfold try_finally. destruct (body w) as [r w1]; simpl.
  pose proof (cleanup_ok w1) as Hok. destruct (cleanup w1) as [[[]|err] w2]; simpl in *; [done|discriminate].
Qed.

Lemma cleanup_active w :
  is_nullish (props (state w)) = false →
  cleaned w (cleanup w).2 ∧ log (cleanup w).2 = log w.
Proof.
  intros Hact. unfold cleanup. rewrite Hact.
  unfold cleaned, idle_shape. simpl. destruct (defer w); simpl; repeat split; reflexivity.
Qed.

Lemma cancel_active w :
  is_nullish (props (state w)) = false →
  let d := mkState (props (state w)) (dx (state w)) (dy (state w)) true in
  (cancel w).1 = Ok tt ∧
  cleaned w (cancel w).2 ∧
  log (cancel w).2 = log w ++ [Dispatched "dnd-drop" d].
Proof.
  intros Hact d. unfold cancel. rewrite Hact, try_finally_cleanup.
  unfold dispatch, dispatchEvent, report; simpl. split; [done|].
  destruct (subscriber w _ _); unfold cleanup; simpl; rewrite Hact;
    unfold cleaned, idle_shape; simpl; destruct (defer w); simpl;
    repeat split; reflexivity.
Qed.

Lemma cancel_reported w :
  is_nullish (props (state w)) = false →
  reported (cancel w).2 =
    reported w ++
    match subscriber w "dnd-drop"
            (mkState (props (state w)) (dx (state w)) (dy (state w)) true) with
    | Some err => [err]
    | None => []
    end.
Proof.
  intros Hact. unfold cancel. rewrite Hact, try_finally_cleanup.
  unfold dispatch, dispatchEvent, report; simpl.
  destruct (subscriber w _ _); unfold cleanup; simpl; rewrite Hact; simpl;
    destruct (defer w); simpl; by rewrite ?app_nil_r.
Qed.

Lemma drop_active w :
  is_nullish (props (state w)) = false →
  (drop w).1 = Ok tt ∧
  cleaned w (drop w).2 ∧
  log (drop w).2 = log w ++ match defer w with None => [Dispatched "dnd-drop" (state w)] | Some _ => [] end.
Proof.
  intros Hact. unfold drop. rewrite Hact, try_finally_cleanup.
  unfold dispatch, dispatchEvent, report, cleanup, cleaned, idle_shape.
  destruct (defer w) eqn:Hd; simpl; try destruct (subscriber w _ _); simpl;
    rewrite Hact; simpl; rewrite ?Hd, ?app_nil_r; simpl; repeat split; reflexivity.
Qed.

Lemma drop_reported w :
  is_nullish (props (state w)) = false →
  reported (drop w).2 =
    reported w ++
    match defer w, subscriber w "dnd-drop" (state w) with
    | None, Some err => [err]
    | _, _ => []
    end.
Proof.
  intros Hact. unfold drop. rewrite Hact, try_finally_cleanup.
  unfold dispatch, dispatchEvent, report, cleanup.
  destruct (defer w) eqn:Hd; simpl; try destruct (subscriber w _ _); simpl;
    rewrite Hact; simpl; rewrite ?Hd; simpl; by rewrite ?app_nil_r.
Qed.

Lemma move_idle e w : is_nullish (props (state w)) = true → move e w = (Ok tt, w).
Proof. intros H. unfold move. by rewrite H. Qed.

Lemma move_frame e w :
  let w' := (move e w).2 in
  props (state w') = props (state w) ∧ canceled (state w') = canceled (state w) ∧ 
  initial w' = initial w ∧ detach w' = detach w ∧
  style w' = style w ∧ body_style w' = body_style w ∧ css_alias w' = css_alias w ∧ subscriber w' = subscriber w ∧ next_timer w' = next_timer w ∧ now w' = now w.
Proof.
  unfold move, dispatch, dispatchEvent, report.
  repeat case_match; simpl; repeat split; try reflexivity.
Qed.

Lemma start_idle p delay e w :
  is_nullish (props (state w)) = true →
  ∃ w', start p delay e w = (Ok tt, w') ∧
    state w' = mkState p (dx (state w)) (dy (state w)) (canceled (state w)) ∧
    initial w' = fill e ∧ current w' = current w ∧ detach w' = detach w ∧
    defer w' = Some (next_timer w) ∧
    timers w' = <[next_timer w := ((now w + Z.max 0 delay)%Z, e)]> (timers w) ∧
    next_timer w' = S (next_timer w) ∧ now w' = now w ∧
    style w' = style (toggleUserSelect w) ∧
    body_style w' = body_style (toggleUserSelect w) ∧
    css_alias w' = css_alias w ∧ subscriber w' = subscriber w ∧
    log w' = log w.
Proof.
  intros Hidle. unfold start. rewrite Hidle. simpl.
  eexists. split; [reflexivity|]. simpl. repeat split; reflexivity.
Qed.

Lemma step_nonterminal_frame i w r w' :
  terminal i = false → step i w = Some (r, w') →
  props (state w') = props (state w) ∧ style w' = style w ∧
  body_style w' = body_style w ∧ css_alias w' = css_alias w ∧
  subscriber w' = subscriber w.
Proof.
  intros Hi Hstep. destruct i; try discriminate; simpl in Hstep.
  - by simplify_eq/=.
  - unfold draggable in Hstep. destruct config; by simplify_eq/=.
  - destruct d; unfold call_destructor, teardown, undraggable in Hstep;
      by simplify_eq/=.
  - injection Hstep as Hstep.
    destruct (move_frame e w) as (? & _ & _ & _ & ? & ? & ? & ? & _).
    rewrite Hstep in *. done.
  - case_decide; by simplify_eq/=.
  - destruct (timers w !! id) as [[due e]|]; [|done]. case_decide; [|done].
    injection Hstep as Hstep. unfold timeout_callback in Hstep.
    match type of Hstep with move e ?w1 = _ =>
      destruct (move_frame e w1) as (? & _ & _ & _ & ? & ? & ? & ? & _) end.
    rewrite Hstep in *. done.
Qed.

Lemma run_nonterminal_frame tr w w' :
  forallb (fun i => negb (terminal i)) tr = true → run tr w = Some w' →
  props (state w') = props (state w) ∧ style w' = style w ∧
  body_style w' = body_style w ∧ css_alias w' = css_alias w ∧
  subscriber w' = subscriber w.
Proof.
  revert w. induction tr as [|i tr IH]; intros w Hall Hrun; simpl in *.
  - by simplify_eq.
  - apply andb_prop in Hall as [Hi Hall]. apply negb_true_iff in Hi.
    destruct (step i w) as [[r w1]|] eqn:Hstep; [|done].
    destruct (step_nonterminal_frame _ _ _ _ Hi Hstep) as (? & ? & ? & ? & ?).
    destruct (IH w1 Hall Hrun) as (? & ? & ? & ? & ?).
    repeat split; congruence.
Qed.

Lemma in_gesture_inv w0 w :
  in_gesture w0 w →
  is_nullish (props (state w)) = false ∧
  style w = style (toggleUserSelect w0) ∧
  body_style w = body_style (toggleUserSelect w0) ∧
  css_alias w = css_alias w0 ∧ subscriber w = subscriber w0.
Proof.
  intros (p & delay & e & tr & Hidle & Hp & Htr & Hrun). simpl in Hrun.
  destruct (start_idle p delay e w0 Hidle) as (w1 & Hstart & Hst & _ & _ & _ & _ & _ & _ & _ & Hsty & Hbody & Hal & Hsub & _).
  rewrite Hstart in Hrun.
  destruct (run_nonterminal_frame _ _ _ Htr Hrun) as (Hprops & ? & ? & ? & ?).
  split; [by rewrite Hprops, Hst|]. repeat split; congruence.
Qed.

Lemma terminal_step i w r w' :
  is_nullish (props (state w)) = false → terminal i = true →
  step i w = Some (r, w') → cleaned w w'.
Proof.
  intros Hact Hi Hstep. destruct i; try discriminate; simpl in Hstep;
    injection Hstep as Hstep.
  - unfold start in Hstep. rewrite Hact in Hstep. simpl in Hstep.
    pose proof (cancel_active w Hact) as (_ & Hc & _). by rewrite Hstep in Hc.
  - pose proof (drop_active w Hact) as (_ & Hc & _). by rewrite Hstep in Hc.
  - pose proof (cancel_active w Hact) as (_ & Hc & _). by rewrite Hstep in Hc.
Qed.


Lemma move_active e w :
  is_nullish (props (state w)) = false →
  let st' := mkState (props (state w))
               (num_sub (Coords.x (fill e)) (Coords.x (initial w)))
               (num_sub (Coords.y (fill e)) (Coords.y (initial w)))
               (canceled (state w)) in
  let crossing := match defer w with
                  | Some _ => negb (num_lt (num_add (dx st') (dy st')) (detach w))
                  | None => true
                  end in
  (move e w).1 = Ok tt ∧
  state (move e w).2 = st' ∧
  current (move e w).2 = fill e ∧
  defer (move e w).2 = (if crossing then None else defer w) ∧
  timers (move e w).2 = (if crossing then timers (clearTimeout (defer w) w) else timers w) ∧
  log (move e w).2 =
    log w ++ (if is_mouse e then [] else [PreventedDefault e]) ++
             (if crossing then [Dispatched "dnd-drag" st'] else []).
Proof.
  intros Hact. unfold move, dispatch, dispatchEvent, report. rewrite Hact.
  destruct (is_mouse e), (defer w) as [id|] eqn:Hd; simpl; rewrite ?Hd; simpl;
    try destruct (num_lt _ _); simpl; try destruct (subscriber w _ _); simpl;
    rewrite ?app_nil_r, <-?app_assoc; repeat split; done.
Qed.

Lemma move_reported e w :
  is_nullish (props (state w)) = false →
  let st' := mkState (props (state w))
               (num_sub (Coords.x (fill e)) (Coords.x (initial w)))
               (num_sub (Coords.y (fill e)) (Coords.y (initial w)))
               (canceled (state w)) in
  let crossing := match defer w with
                  | Some _ => negb (num_lt (num_add (dx st') (dy st')) (detach w))
                  | None => true
                  end in
  reported (move e w).2 =
    reported w ++
    match (if crossing then subscriber w "dnd-drag" st' else None) with
    | Some err => [err]
    | None => []
    end.
Proof.
  intros Hact. unfold move, dispatch, dispatchEvent, report. rewrite Hact.
  destruct (is_mouse e), (defer w) as [id|] eqn:Hd; simpl; rewrite ?Hd; simpl;
    try destruct (num_lt _ _); simpl; try destruct (subscriber w _ _); simpl;
    by rewrite ?app_nil_r.
Qed.

Lemma move_timers e w id :
  timers w !! id = None → timers (move e w).2 !! id = None.
Proof.
  intros Hnone. destruct (is_nullish (props (state w))) eqn:Hact.
  - by rewrite move_idle.
  - destruct (move_active e w Hact) as (_ & _ & _ & _ & -> & _).
    case_match; [|done]. destruct (defer w); simpl; [|done].
    rewrite lookup_delete_None. by right.
Qed.

Lemma cleanup_timers w id :
  timers w !! id = None → timers (cleanup w).2 !! id = None.
Proof.
  intros Hnone. unfold cleanup. destruct (is_nullish _); [done|].
  simpl. destruct (defer w); simpl; [|done]. rewrite lookup_delete_None. by right.
Qed.

Lemma finish_timers (body : M unit) w id :
  timers (body w).2 = timers w → timers w !! id = None →
  timers (try_finally body cleanup w).2 !! id = None.
Proof.
  intros Hb Hnone. rewrite try_finally_cleanup. simpl.
  apply cleanup_timers. by rewrite Hb.
Qed.

Lemma dispatch_timers type w :
  timers (dispatch type w).2 = timers w ∧
  next_timer (dispatch type w).2 = next_timer w.
Proof.
  unfold dispatch, dispatchEvent, report; simpl.
  by destruct (subscriber _ _ _).
Qed.

Lemma cancel_timers w id :
  timers w !! id = None → timers (cancel w).2 !! id = None.
Proof.
  intros Hnone. unfold cancel. destruct (is_nullish _); [done|].
  apply finish_timers; [apply dispatch_timers | done].
Qed.

Lemma drop_timers w id :
  timers w !! id = None → timers (drop w).2 !! id = None.
Proof.
  intros Hnone. unfold drop. destruct (is_nullish _); [done|].
  apply finish_timers; [|done]. destruct (defer w); [done|apply dispatch_timers].
Qed.

Lemma next_timer_fixed w :
  next_timer (cleanup w).2 = next_timer w ∧ next_timer (cancel w).2 = next_timer w ∧
  next_timer (drop w).2 = next_timer w ∧ ∀ e, next_timer (move e w).2 = next_timer w.
Proof.
  assert (Hc : ∀ w, next_timer (cleanup w).2 = next_timer w).
  { intros w1. unfold cleanup. destruct (is_nullish _); [done|].
    simpl. by destruct (defer w1). }
  split; [apply Hc|]. split; [|split].
  - unfold cancel. destruct (is_nullish _); [done|].
    rewrite try_finally_cleanup. cbn [snd]. rewrite Hc.
    by rewrite (proj2 (dispatch_timers _ _)).
  - unfold drop. destruct (is_nullish _); [done|].
    rewrite try_finally_cleanup. cbn [snd]. rewrite Hc.
    destruct (defer w); [done|]. by rewrite (proj2 (dispatch_timers _ _)).
  - intros e. by destruct (move_frame e w) as (_ & _ & _ & _ & _ & _ & _ & _ & ? & _).
Qed.

Lemma step_spent id i w r w' :
  spent id w → step i w = Some (r, w') → spent id w'.
Proof.
  intros [Hlt Hnone] Hstep. unfold spent.
  destruct (next_timer_fixed w) as (_ & Hnc & Hnd & Hnm).
  destruct i; simpl in Hstep.
  - by simplify_eq/=.
  - unfold draggable in Hstep. destruct config; by simplify_eq/=.
  - destruct d; unfold call_destructor, teardown, undraggable in Hstep;
      by simplify_eq/=.
  - injection Hstep as Hstep. unfold start in Hstep.
    destruct (is_nullish _); simpl in Hstep.
    + simplify_eq. simpl. split; [lia|].
      rewrite lookup_insert_None. split; [done|lia].
    + pose proof (cancel_timers w id Hnone) as Ht. rewrite Hstep in Ht.
      rewrite Hstep in Hnc. simpl in *. by rewrite Hnc.
  - injection Hstep as Hstep. pose proof (move_timers e w id Hnone) as Ht.
    specialize (Hnm e). rewrite Hstep in Ht, Hnm. simpl in *. by rewrite Hnm.
  - injection Hstep as Hstep. pose proof (drop_timers w id Hnone) as Ht.
    rewrite Hstep in Ht, Hnd. simpl in *. by rewrite Hnd.
  - injection Hstep as Hstep. pose proof (cancel_timers w id Hnone) as Ht.
    rewrite Hstep in Ht, Hnc. simpl in *. by rewrite Hnc.
  - case_decide; by simplify_eq/=.
  - destruct (timers w !! id0) as [[due e]|]; [|done]. case_decide; [|done].
    injection Hstep as Hstep. unfold timeout_callback in Hstep.
    match type of Hstep with move e ?w1 = _ =>
      pose proof (move_timers e w1 id) as Ht;
      destruct (next_timer_fixed w1) as (_ & _ & _ & Hn1); specialize (Hn1 e) end.
    rewrite Hstep in Ht, Hn1. simpl in *. rewrite Hn1. split; [done|].
    apply Ht. rewrite lookup_delete_None. by right.
Qed.

Lemma run_spent id tr w w' :
  spent id w → run tr w = Some w' → spent id w'.
Proof.
  revert w. induction tr as [|i tr IH]; intros w Hs Hrun; simpl in *.
  - by simplify_eq.
  - destruct (step i w) as [[r w1]|] eqn:Hstep; [|done].
    eapply IH; [|done]. by eapply step_spent.
Qed.

Lemma spent_never_fires id tr w w' :
  spent id w → run tr w = Some w' → step (Timeout id) w' = None.
Proof.
  intros Hs Hrun. destruct (run_spent _ _ _ _ Hs Hrun) as [_ Hnone].
  simpl. by rewrite Hnone.
Qed.

(** ** The gesture state machine *)

Lemma phase_active w : phase_of w ≠ Idle ↔ is_nullish (props (state w)) = false.
Proof.
  unfold phase_of. destruct (is_nullish _); [|destruct (defer w)]; naive_solver.
Qed.

Lemma cleaned_idle w w' : cleaned w w' → idle_shape w' ∧ phase_of w' = Idle.
Proof.
  intros (Hi & _). split; [done|]. destruct Hi as (Hs & _).
  unfold phase_of. by rewrite Hs.
Qed.

Lemma cancelling_step i w :
  is_nullish (props (state w)) = false → cancelling i = true →
  step i w = Some (cancel w).
Proof.
  intros Hact Hi. destruct i; try discriminate; simpl; [|done].
  unfold start. by rewrite Hact.
Qed.

(** C4. Every cancel-path input received while a gesture is in progress
    (an interrupt: context menu, touch-cancel or a second touch-start; or a
    new pointer-down) emits exactly one "dnd-drop" notification whose
    [canceled] flag is true, in the Pending phase as well as in the Dragging
    phase, and leaves the module idle. *)
Theorem cancel_emits_one_canceled_drop i w :
  phase_of w = Pending ∨ phase_of w = Dragging →
  cancelling i = true →
  ∃ r w', step i w = Some (r, w') ∧
    log w' = log w ++
      [Dispatched "dnd-drop"
         (mkState (props (state w)) (dx (state w)) (dy (state w)) true)] ∧
    idle_shape w' ∧ phase_of w' = Idle.
Proof.
  intros Hph Hi.
  assert (Hact : is_nullish (props (state w)) = false).
  { apply (proj1 (phase_active w)). destruct Hph as [H | H]; by rewrite H. }
  rewrite (cancelling_step i w Hact Hi).
  destruct (cancel_active w Hact) as (_ & Hc & Hlog).
  exists (cancel w).1, (cancel w).2. split; [by destruct (cancel w)|].
  split; [done|]. by apply (cleaned_idle w).
Qed.

Lemma cancel_emits_one_canceled_drop_witness :
  ∃ r w', step Interrupt pending_world = Some (r, w') ∧
    log w' = log pending_world ++
      [Dispatched "dnd-drop"
         (mkState (props (state pending_world)) (dx (state pending_world))
            (dy (state pending_world)) true)] ∧
    idle_shape w' ∧ phase_of w' = Idle.
Proof.
  apply (cancel_emits_one_canceled_drop Interrupt pending_world).
  - left. vm_compute. reflexivity.
  - reflexivity.
Defined.

(** C3. Pointer-down followed by pointer-up with no move in between and less
    than [delay] elapsed: the timer cannot run before the release, nothing
    is notified (the log is unchanged), the module is idle again, and the
    timer armed by the press never runs afterwards, whatever happens next. *)
Theorem press_release_before_delay w0 p delay e dt :
  is_nullish (props (state w0)) = true → is_nullish p = false →
  (0 ≤ dt < delay)%Z →
  run [PointerDown p delay e; Elapse dt; Timeout (next_timer w0)] w0 = None ∧
  ∃ w2, run [PointerDown p delay e; Elapse dt; PointerUp] w0 = Some w2 ∧
    log w2 = log w0 ∧ idle_shape w2 ∧ phase_of w2 = Idle ∧
    ∀ tr w3, run tr w2 = Some w3 → step (Timeout (next_timer w0)) w3 = None.
Proof.
  intros Hidle Hp Hdt.
  destruct (start_idle p delay e w0 Hidle)
    as (w1 & Hstart & Hst & _ & _ & _ & Hdefer & Htimers & Hnext & Hnow & _ & _ & _ & _ & Hlog).
  simpl. rewrite Hstart. destruct (decide (0 ≤ dt)%Z) as [_|]; [|lia]. split.
  - simpl. rewrite Htimers, lookup_insert_eq, Hnow.
    case_decide; [lia|done].
  - set (w1' := with_now (now w1 + dt) w1).
    assert (Hact : is_nullish (props (state w1')) = false) by by (simpl; rewrite Hst).
    destruct (drop_active w1' Hact) as (_ & Hc & Hlog').
    exists (drop w1').2. split; [by destruct (drop w1')|].
    simpl in Hlog'. rewrite Hdefer in Hlog'. rewrite app_nil_r in Hlog'.
    split; [congruence|]. split; [apply (cleaned_idle _ _ Hc)|].
    split; [apply (cleaned_idle _ _ Hc)|].
    intros tr w3. apply spent_never_fires.
    destruct Hc as (_ & Ht & Hn & _). unfold spent. rewrite Hn, Ht. simpl.
    rewrite Hdefer, Hnext. simpl. split; [lia|]. apply lookup_delete_eq.
Qed.
Lemma notifications_app l1 l2 :
  notifications (l1 ++ l2) = notifications l1 ++ notifications l2.
Proof. apply omap_app. Qed.

Lemma fill_pointer e px py :
  pointer_at e px py → fill e = Coords.mk (Some px) (Some py).
Proof. unfold pointer_at, fill. by intros ->. Qed.

Lemma move_notifications e w :
  is_nullish (props (state w)) = false →
  notifications (log (move e w).2) =
    notifications (log w) ++
    (if match defer w with
        | Some _ =>
            negb (num_lt (num_add (num_sub (Coords.x (fill e)) (Coords.x (initial w)))
                                  (num_sub (Coords.y (fill e)) (Coords.y (initial w))))
                         (detach w))
        | None => true
        end
     then [("dnd-drag",
            mkState (props (state w))
              (num_sub (Coords.x (fill e)) (Coords.x (initial w)))
              (num_sub (Coords.y (fill e)) (Coords.y (initial w)))
              (canceled (state w)))]
     else []).
Proof.
  intros Hact. destruct (move_active e w Hact) as (_ & _ & _ & _ & _ & ->).
  rewrite !notifications_app. f_equal.
  destruct (is_mouse e); simpl; by case_match.
Qed.

(** C5. When the delay elapses with no move, the timer (which cannot run
    before the delay) emits exactly one "dnd-drag" notification with delta
    (0,0), and the following pointer-up emits exactly one "dnd-drop"
    notification with [canceled = false] and leaves the module idle. *)
Theorem drag_starts_when_delay_elapses w0 p delay e px py dt :
  is_nullish (props (state w0)) = true → idle_zero w0 →
  is_nullish p = false → pointer_at e px py →
  (0 ≤ dt)%Z → (delay ≤ dt)%Z →
  (∀ dt', (0 ≤ dt' < delay)%Z →
     run [PointerDown p delay e; Elapse dt'; Timeout (next_timer w0)] w0 = None) ∧
  ∃ w3 r w4,
    run [PointerDown p delay e; Elapse dt; Timeout (next_timer w0)] w0 = Some w3 ∧
    notifications (log w3) =
      notifications (log w0) ++ [("dnd-drag", mkState p (Num 0) (Num 0) false)] ∧
    phase_of w3 = Dragging ∧
    step PointerUp w3 = Some (r, w4) ∧
    notifications (log w4) =
      notifications (log w3) ++ [("dnd-drop", mkState p (Num 0) (Num 0) false)] ∧
    idle_shape w4 ∧ phase_of w4 = Idle.
Proof.
  intros Hidle Hzero Hp Hptr Hdt0 Hdt.
  destruct (Hzero Hidle) as (_ & _ & Hcan).
  destruct (start_idle p delay e w0 Hidle)
    as (w1 & Hstart & Hst & Hini & _ & _ & Hdefer & Htimers & Hnext & Hnow & _ & _ & _ & _ & Hlog).
  split.
  - intros dt' Hdt'. simpl. rewrite Hstart.
    destruct (decide (0 ≤ dt')%Z) as [_|]; [|lia].
    simpl. rewrite Htimers, lookup_insert_eq, Hnow. case_decide; [lia|done].
  - simpl. rewrite Hstart. destruct (decide (0 ≤ dt)%Z) as [_|]; [|lia].
    simpl. rewrite Htimers, lookup_insert_eq, Hnow.
    destruct (decide (now w0 + Z.max 0 delay ≤ now w0 + dt)%Z) as [_|]; [|lia].
    unfold timeout_callback.
    match goal with |- context [move e ?w] => set (w2 := w) end.
    assert (Hact : is_nullish (props (state w2)) = false) by by (simpl; rewrite Hst).
    pose proof (move_notifications e w2 Hact) as Hnote.
    destruct (move_active e w2 Hact) as (_ & Hst3 & _ & Hdef3 & _ & _).
    rewrite (fill_pointer e px py Hptr) in Hnote, Hst3, Hini.
    simpl in Hnote, Hst3, Hdef3.
    rewrite Hini, Hst in Hnote, Hst3. simpl in Hnote, Hst3.
    rewrite !Z.sub_diag, Hlog, Hcan in Hnote. rewrite !Z.sub_diag, Hcan in Hst3.
    set (w3 := (move e w2).2) in *.
    assert (Hact3 : is_nullish (props (state w3)) = false) by by rewrite Hst3.
    destruct (drop_active w3 Hact3) as (_ & Hc & Hlog4).
    rewrite Hdef3 in Hlog4.
    exists w3, (drop w3).1, (drop w3).2.
    split; [by destruct (move e w2)|]. split; [done|].
    split; [unfold phase_of; by rewrite Hact3, Hdef3|].
    split; [by destruct (drop w3)|].
    split; [by rewrite Hlog4, notifications_app, Hst3|].
    apply (cleaned_idle w3 _ Hc).
Qed.
Lemma drag_from_frame w w' x0 y0 pt :
  props (state w') = props (state w) → canceled (state w') = canceled (state w) →
  drag_from w' x0 y0 pt = drag_from w x0 y0 pt.
Proof. intros Hp Hc. unfold drag_from. by rewrite Hp, Hc. Qed.

Lemma move_reaching e w x0 y0 px py :
  is_nullish (props (state w)) = false →
  initial w = Coords.mk (Some x0) (Some y0) → pointer_at e px py →
  match defer w with
  | Some _ => (detach w ≤ (px - x0) + (py - y0))%Z
  | None => True
  end →
  defer (move e w).2 = None ∧
  timers (move e w).2 = timers (clearTimeout (defer w) w) ∧
  notifications (log (move e w).2) =
    notifications (log w) ++ [drag_from w x0 y0 (px, py)].
Proof.
  intros Hact Hini Hptr Hreach.
  pose proof (move_notifications e w Hact) as Hnote.
  destruct (move_active e w Hact) as (_ & _ & _ & Hdef & Htim & _).
  rewrite (fill_pointer e px py Hptr), Hini in Hnote, Hdef, Htim.
  simpl in Hnote, Hdef, Htim.
  assert (Hcross : match defer w with
                   | Some _ => negb ((px - x0 + (py - y0) <? detach w)%Z)
                   | None => true
                   end = true).
  { destruct (defer w); [|done]. apply negb_true_iff, Z.ltb_ge, Hreach. }
  rewrite Hcross in Hnote, Hdef, Htim. done.
Qed.

Lemma dragging_moves w x0 y0 es pts :
  is_nullish (props (state w)) = false → defer w = None →
  initial w = Coords.mk (Some x0) (Some y0) →
  Forall2 (fun e pt => pointer_at e pt.1 pt.2) es pts →
  ∃ w2, run (PointerMove <$> es) w = Some w2 ∧
    notifications (log w2) = notifications (log w) ++ (drag_from w x0 y0 <$> pts).
Proof.
  intros Hact Hdef Hini Hall. revert w Hact Hdef Hini.
  induction Hall as [|e [px py] es pts Hptr _ IH]; intros w Hact Hdef Hini; simpl.
  - exists w. by rewrite app_nil_r.
  - destruct (move_frame e w) as (Hp & Hc & Hi & _).
    destruct (move_reaching e w x0 y0 px py Hact Hini Hptr) as (Hd1 & _ & Hn1);
      [by rewrite Hdef|].
    destruct (move e w) as [r w1]; simpl in *.
    destruct (IH w1) as (w2 & Hrun & Hn2); [congruence..|].
    exists w2. split; [done|].
    rewrite Hn2, Hn1, <-app_assoc. simpl.
    f_equal. f_equal. apply list_fmap_ext. intros _ pt _.
    by apply drag_from_frame.
Qed.

(** In the Pending phase a move whose signed displacement sum [dx + dy]
    reaches [detach] starts the drag at once: the pending timer is cleared
    and never runs later, one "dnd-drag" notification is emitted, and every
    later move notifies the delta measured from the position of the
    pointer-down. *)
Theorem threshold_move_starts_drag w id x0 y0 e px py :
  phase_of w = Pending → defer w = Some id → defer_known w →
  initial w = Coords.mk (Some x0) (Some y0) → pointer_at e px py →
  (detach w ≤ (px - x0) + (py - y0))%Z →
  ∃ r w1, step (PointerMove e) w = Some (r, w1) ∧
    phase_of w1 = Dragging ∧
    notifications (log w1) = notifications (log w) ++ [drag_from w x0 y0 (px, py)] ∧
    (∀ tr w2, run tr w1 = Some w2 → step (Timeout id) w2 = None) ∧
    ∀ es pts, Forall2 (fun e' pt => pointer_at e' pt.1 pt.2) es pts →
      ∃ w2, run (PointerMove <$> es) w1 = Some w2 ∧
        notifications (log w2) =
          notifications (log w1) ++ (drag_from w x0 y0 <$> pts).
Proof.
  intros Hph Hdef Hknown Hini Hptr Hreach.
  assert (Hact : is_nullish (props (state w)) = false).
  { apply (proj1 (phase_active w)). by rewrite Hph. }
  destruct (move_frame e w) as (Hp & Hc & Hi & _ & _ & _ & _ & _ & Hnext & _).
  destruct (move_reaching e w x0 y0 px py Hact Hini Hptr) as (Hd1 & Ht1 & Hn1);
    [by rewrite Hdef|].
  simpl. destruct (move e w) as [r w1]; simpl in *.
  assert (Hact1 : is_nullish (props (state w1)) = false) by by rewrite Hp.
  exists r, w1. split; [done|].
  split; [unfold phase_of; by rewrite Hact1, Hd1|]. split; [done|]. split.
  - intros tr w2. apply spent_never_fires. unfold spent.
    rewrite Hnext, Ht1, Hdef. simpl. split; [by apply Hknown | apply lookup_delete_eq].
  - intros es pts Hall.
    destruct (dragging_moves w1 x0 y0 es pts) as (w2 & Hrun & Hn2);
      [done | done | congruence | done |].
    exists w2. split; [done|]. rewrite Hn2. f_equal.
    apply list_fmap_ext. intros _ pt _. by apply drag_from_frame.
Qed.

(** C2. The Pending-phase test compares the raw signed sum [dx + dy] with
    [detach]: a move notifies "dnd-drag" exactly when the signed sum is not
    below the threshold; with threshold 2 a move displaced by (+5, -5)
    starts no drag, emits nothing and leaves the timer armed. *)
Theorem signed_sum_threshold w id x0 y0 e px py :
  phase_of w = Pending → defer w = Some id →
  initial w = Coords.mk (Some x0) (Some y0) → pointer_at e px py →
  ∃ r w1, step (PointerMove e) w = Some (r, w1) ∧
    notifications (log w1) =
      notifications (log w) ++
      (if decide ((px - x0) + (py - y0) < detach w)%Z
       then [] else [drag_from w x0 y0 (px, py)]) ∧
    (detach w = 2%Z → (px - x0 = 5)%Z → (py - y0 = -5)%Z →
     r = Ok tt ∧ notifications (log w1) = notifications (log w) ∧
     phase_of w1 = Pending ∧ defer w1 = Some id ∧ timers w1 = timers w ∧
     dx (state w1) = Num 5 ∧ dy (state w1) = Num (-5)).
Proof.
  intros Hph Hdef Hini Hptr.
  assert (Hact : is_nullish (props (state w)) = false).
  { apply (proj1 (phase_active w)). by rewrite Hph. }
  pose proof (move_notifications e w Hact) as Hnote.
  destruct (move_active e w Hact) as (Hr & Hst & _ & Hd1 & Ht1 & _).
  rewrite (fill_pointer e px py Hptr), Hini in Hnote, Hst, Hd1, Ht1.
  rewrite Hdef in Hnote, Hd1, Ht1.
  simpl in Hnote, Hst, Hd1, Ht1.
  simpl. destruct (move e w) as [r w1]; simpl in *.
  exists r, w1. split; [done|]. split.
  - rewrite Hnote. f_equal. case_decide as Hlt.
    + by apply Z.ltb_lt in Hlt as ->.
    + apply Z.nlt_ge, Z.ltb_ge in Hlt. by rewrite Hlt.
  - intros Hdet Hx Hy. rewrite Hx, Hy in Hst.
    rewrite Hdet, Hx, Hy in Hnote, Hd1, Ht1.
    simpl in *. rewrite app_nil_r in Hnote.
    split; [done|]. split; [done|]. rewrite Hst. simpl.
    unfold phase_of. rewrite Hst, Hd1. simpl. by rewrite Hact.
Qed.

(** C1, on the code: a gesture pressed at (0,0) with threshold 2 is Pending;
    the pointer moves to (5,-5), a displacement of [|dx| + |dy| = 10]. The
    move starts no drag and notifies nothing; the timer stays armed, and
    when it runs later the "dnd-drag" it emits carries the delta (0,0) of
    the pressing event. *)
Lemma abs_threshold_not_honoured :
  phase_of pending_world = Pending ∧
  initial pending_world = Coords.mk (Some 0%Z) (Some 0%Z) ∧
  pointer_at (MouseEvent 5 (-5)) 5 (-5) ∧
  (detach pending_world ≤ Z.abs (5 - 0) + Z.abs (-5 - 0))%Z ∧
  ∃ w1, step (PointerMove (MouseEvent 5 (-5))) pending_world = Some (Ok tt, w1) ∧
    phase_of w1 = Pending ∧ notifications (log w1) = [] ∧
    ∃ w2, run [Elapse 50; Timeout 1] w1 = Some w2 ∧
      notifications (log w2) =
        [("dnd-drag", mkState (VData 1) (Num 0) (Num 0) false)].
Proof.
  split; [vm_compute; reflexivity|]. split; [vm_compute; reflexivity|].
  split; [reflexivity|]. split; [vm_compute; discriminate|].
  eexists. split; [vm_compute; reflexivity|].
  split; [vm_compute; reflexivity|]. split; [vm_compute; reflexivity|].
  eexists. split; vm_compute; reflexivity.
Qed.
(** C7. Selection suppression is a round trip: whatever ends a gesture, every
    style property of the body, hence every one of the user-select keys, has
    afterwards the value it had immediately before the gesture started, for
    arbitrary previous values and arbitrary aliasing between keys. *)
Theorem selection_style_round_trip w0 w i r w' :
  in_gesture w0 w → terminal i = true → step i w = Some (r, w') →
  (∀ p, body_style w' p = body_style w0 p) ∧
  (∀ key, style_get (css_alias w') (body_style w') key =
          style_get (css_alias w0) (body_style w0) key).
Proof.
  intros Hg Hi Hstep.
  destruct (in_gesture_inv w0 w Hg) as (Hact & Hs & Hb & Ha & _).
  destruct (terminal_step i w r w' Hact Hi Hstep) as (_ & _ & _ & _ & Hb' & Ha' & _).
  assert (Hbody : ∀ p, body_style w' p = body_style w0 p).
  { intros p. rewrite Hb'. by apply toggle_restores. }
  split; [done|]. intros key. unfold style_get. by rewrite Hbody, Ha', Ha.
Qed.

Lemma terminal_step_result i w :
  is_nullish (props (state w)) = false → terminal i = true →
  (i = PointerUp → defer w = None) →
  ∃ w', step i w = Some (Ok tt, w') ∧
    log w' = log w ++ [Dispatched "dnd-drop" (drop_detail i w)] ∧
    reported w' =
      reported w ++
      match subscriber w "dnd-drop" (drop_detail i w) with
      | Some err => [err]
      | None => []
      end.
Proof.
  intros Hact Hi Hup. destruct i; try discriminate.
  - rewrite (cancelling_step (PointerDown p delay e) w Hact eq_refl).
    destruct (cancel_active w Hact) as (Hr & _ & Hlog).
    pose proof (cancel_reported w Hact) as Hrep.
    unfold drop_detail; simpl.
    exists (cancel w).2. split; [|done]. rewrite <-Hr. by destruct (cancel w).
  - destruct (drop_active w Hact) as (Hr & _ & Hlog).
    pose proof (drop_reported w Hact) as Hrep.
    rewrite (Hup eq_refl) in Hlog, Hrep. simpl.
    exists (drop w).2. unfold drop_detail; simpl. split; [|done].
    rewrite <-Hr. by destruct (drop w).
  - rewrite (cancelling_step Interrupt w Hact eq_refl).
    destruct (cancel_active w Hact) as (Hr & _ & Hlog).
    pose proof (cancel_reported w Hact) as Hrep.
    unfold drop_detail; simpl.
    exists (cancel w).2. split; [|done]. rewrite <-Hr. by destruct (cancel w).
Qed.

(** C8, as amended. If a listener of [observer] throws while the final
    "dnd-drop" notification is dispatched, on the drop path or on a cancel
    path, [cleanup] has run all the same: the module is idle, the timer is
    cleared and the body style is as it was before the gesture. The
    exception does not reach the caller of [drop] or [cancel]: the event
    target reports it to the host and the handler returns normally. *)
Theorem cleanup_with_throwing_subscriber w0 w i err :
  in_gesture w0 w → terminal i = true →
  (i = PointerUp → defer w = None) →
  subscriber w "dnd-drop" (drop_detail i w) = Some err →
  ∃ w', step i w = Some (Ok tt, w') ∧
    reported w' = reported w ++ [err] ∧
    log w' = log w ++ [Dispatched "dnd-drop" (drop_detail i w)] ∧
    idle_shape w' ∧ phase_of w' = Idle ∧
    (∀ id, defer w = Some id → timers w' !! id = None) ∧
    (∀ p, body_style w' p = body_style w0 p).
Proof.
  intros Hg Hi Hup Hthrow.
  destruct (in_gesture_inv w0 w Hg) as (Hact & Hs & Hb & Ha & _).
  destruct (terminal_step_result i w Hact Hi Hup) as (w' & Hstep & Hlog & Hrep).
  rewrite Hthrow in Hrep.
  pose proof (terminal_step i w _ w' Hact Hi Hstep) as Hc.
  exists w'. split; [done|]. split; [done|]. split; [done|].
  split; [apply (cleaned_idle w w' Hc)|]. split; [apply (cleaned_idle w w' Hc)|].
  destruct Hc as (_ & Ht & _ & _ & Hb' & _). split.
  - intros id Hid. rewrite Ht, Hid. simpl. apply lookup_delete_eq.
  - intros p. rewrite Hb'. by apply toggle_restores.
Qed.

(** C8, as stated, fails: with a subscriber that throws on "dnd-drop", a
    release and a cancel of a gesture being dragged both return normally;
    no exception reaches their caller, it is only reported to the host. *)
Lemma subscriber_exception_not_propagated :
  phase_of faulty_dragging_world = Dragging ∧
  subscriber faulty_dragging_world "dnd-drop"
    (drop_detail PointerUp faulty_dragging_world) = Some (Thrown 7) ∧
  subscriber faulty_dragging_world "dnd-drop"
    (drop_detail Interrupt faulty_dragging_world) = Some (Thrown 7) ∧
  (∃ w', step PointerUp faulty_dragging_world = Some (Ok tt, w') ∧
         reported w' = [Thrown 7]) ∧
  (∃ w', step Interrupt faulty_dragging_world = Some (Ok tt, w') ∧
         reported w' = [Thrown 7]) ∧
  (∀ i err w', terminal i = true →
     step i faulty_dragging_world ≠ Some (Throw err, w')).
Proof.
  split; [vm_compute; reflexivity|]. split; [vm_compute; reflexivity|].
  split; [vm_compute; reflexivity|].
  split; [eexists; split; vm_compute; reflexivity|].
  split; [eexists; split; vm_compute; reflexivity|].
  intros i err w' Hi Hstep.
  destruct (terminal_step_result i faulty_dragging_world) as (w1 & Hok & _);
    [vm_compute; reflexivity | done | intros _; vm_compute; reflexivity |].
  rewrite Hok in Hstep. discriminate.
Qed.

Lemma active_false w : active w = false ↔ is_nullish (props (state w)) = true.
Proof. unfold active. by destruct (is_nullish _). Qed.

Lemma state_unchanged_step i w r w' :
  terminal i = false → is_nullish (props (state w)) = true →
  step i w = Some (r, w') → state w' = state w.
Proof.
  intros Hi Hidle Hstep. destruct i; try discriminate; simpl in Hstep.
  - by simplify_eq/=.
  - unfold draggable in Hstep. destruct config; by simplify_eq/=.
  - destruct d; unfold call_destructor, teardown, undraggable in Hstep;
      by simplify_eq/=.
  - rewrite (move_idle e w Hidle) in Hstep. by simplify_eq.
  - case_decide; by simplify_eq/=.
  - destruct (timers w !! id) as [[due e]|]; [|done]. case_decide; [|done].
    unfold timeout_callback in Hstep. rewrite move_idle in Hstep; [|done].
    by simplify_eq/=.
Qed.

(** C9. Every step keeps the invariant of [state]: while [props] is absent,
    [dx] and [dy] are zero and [canceled] is false; [props] is present
    exactly when the gesture state machine says a gesture is in progress;
    and a move, drop or cancel received while idle changes nothing and
    notifies nothing. *)
Theorem idle_invariant i w r w' :
  idle_zero w → step i w = Some (r, w') →
  idle_zero w' ∧
  active w' = gesture_after i (active w) ∧
  (active w = false → needs_gesture i = true → r = Ok tt ∧ w' = w).
Proof.
  intros Hzero Hstep.
  destruct (is_nullish (props (state w))) eqn:Hact.
  - (* no gesture in progress *)
    assert (Ha : active w = false) by by apply active_false.
    rewrite Ha. destruct (terminal i) eqn:Hi.
    + destruct i; try discriminate; simpl in Hstep.
      * destruct (start_idle p delay e w Hact) as (w1 & Hstart & Hst & _).
        rewrite Hstart in Hstep. simplify_eq. simpl.
        unfold idle_zero, active. rewrite Hst. simpl.
        split; [intros _; by apply Hzero|]. done.
      * unfold drop in Hstep. rewrite Hact in Hstep. by simplify_eq.
      * unfold cancel in Hstep. rewrite Hact in Hstep. by simplify_eq.
    + pose proof (state_unchanged_step i w r w' Hi Hact Hstep) as Hst.
      split; [unfold idle_zero; by rewrite Hst|].
      split; [unfold active; rewrite Hst; fold (active w); rewrite Ha;
              by destruct i|].
      intros _ Hn. destruct i; try discriminate. simpl in Hstep.
      rewrite (move_idle e w Hact) in Hstep. by simplify_eq.
  - (* a gesture is in progress *)
    assert (Ha : active w = true) by (unfold active; by rewrite Hact).
    rewrite Ha. destruct (terminal i) eqn:Hi.
    + destruct (terminal_step i w r w' Hact Hi Hstep) as ((Hst & _) & _).
      split; [unfold idle_zero; by rewrite Hst|].
      split; [unfold active; rewrite Hst; by destruct i|]. done.
    + destruct (step_nonterminal_frame i w r w' Hi Hstep) as (Hp & _).
      split; [unfold idle_zero; rewrite Hp, Hact; done|].
      split; [unfold active; rewrite Hp, Hact; by destruct i|]. done.
Qed.

(** C10. [draggable] called with [config] undefined throws a [TypeError] at
    [config.delay] and changes nothing; there is no fallback to the
    defaults, which an empty configuration object does get (delay 50, the
    current threshold). *)
Theorem draggable_without_config p element w :
  (∃ msg, draggable p element ConfigUndefined w = (Throw (TypeError msg), w)) ∧
  (∃ w', draggable p element (ConfigObject None None) w =
           (Ok (Undraggable element (cb_start (next_fn w) p 50)), w') ∧
         detach w' = detach w).
Proof.
  split.
  - eexists. reflexivity.
  - eexists. split; reflexivity.
Qed.

(** C6, on the code: after [init] and the teardown function it returns, three
    of the seven listeners are still attached to the window: "contextmenu",
    "touchcancel", and the capture-phase "touchstart" listener (the removal
    asks for the non-capture one). *)
Theorem teardown_leaves_cancel_listeners alias body sub :
  window_listeners (teardown (init (initial_world alias body sub)).2).2 =
    [ mkListener "contextmenu" cb_cancel false;
      mkListener "touchcancel" cb_cancel false;
      mkListener "touchstart" cb_cancel true ].
Proof. vm_compute. reflexivity. Qed.
Lemma press_release_before_delay_witness :
  run [PointerDown (VData 1) 50 (MouseEvent 0 0); Elapse 20;
       Timeout (next_timer fresh_world)] fresh_world = None ∧
  ∃ w2, run [PointerDown (VData 1) 50 (MouseEvent 0 0); Elapse 20; PointerUp]
          fresh_world = Some w2 ∧
    log w2 = log fresh_world ∧ idle_shape w2 ∧ phase_of w2 = Idle ∧
    ∀ tr w3, run tr w2 = Some w3 → step (Timeout (next_timer fresh_world)) w3 = None.
Proof.
  apply (press_release_before_delay fresh_world (VData 1) 50 (MouseEvent 0 0) 20).
  - reflexivity.
  - reflexivity.
  - lia.
Defined.

Lemma fresh_world_idle_zero : idle_zero fresh_world.
Proof. intros _. vm_compute. done. Qed.

Lemma drag_starts_when_delay_elapses_witness :
  (∀ dt', (0 ≤ dt' < 50)%Z →
     run [PointerDown (VData 1) 50 (MouseEvent 4 9); Elapse dt';
          Timeout (next_timer fresh_world)] fresh_world = None) ∧
  ∃ w3 r w4,
    run [PointerDown (VData 1) 50 (MouseEvent 4 9); Elapse 60;
         Timeout (next_timer fresh_world)] fresh_world = Some w3 ∧
    notifications (log w3) =
      notifications (log fresh_world) ++
      [("dnd-drag", mkState (VData 1) (Num 0) (Num 0) false)] ∧
    phase_of w3 = Dragging ∧
    step PointerUp w3 = Some (r, w4) ∧
    notifications (log w4) =
      notifications (log w3) ++
      [("dnd-drop", mkState (VData 1) (Num 0) (Num 0) false)] ∧
    idle_shape w4 ∧ phase_of w4 = Idle.
Proof.
  apply (drag_starts_when_delay_elapses fresh_world (VData 1) 50 (MouseEvent 4 9) 4 9 60).
  - reflexivity.
  - intros _. vm_compute. done.
  - reflexivity.
  - reflexivity.
  - lia.
  - lia.
Defined.

Lemma pending_world_defer_known : defer_known pending_world.
Proof. intros id Hid. vm_compute in Hid. injection Hid as <-. vm_compute. lia. Qed.

Lemma threshold_move_starts_drag_witness :
  ∃ r w1, step (PointerMove (MouseEvent 3 1)) pending_world = Some (r, w1) ∧
    phase_of w1 = Dragging ∧
    notifications (log w1) =
      notifications (log pending_world) ++ [drag_from pending_world 0 0 (3, 1)%Z] ∧
    (∀ tr w2, run tr w1 = Some w2 → step (Timeout 1) w2 = None) ∧
    ∀ es pts, Forall2 (fun e' pt => pointer_at e' pt.1 pt.2) es pts →
      ∃ w2, run (PointerMove <$> es) w1 = Some w2 ∧
        notifications (log w2) =
          notifications (log w1) ++ (drag_from pending_world 0 0 <$> pts).
Proof.
  apply (threshold_move_starts_drag pending_world 1 0 0 (MouseEvent 3 1) 3 1).
  - vm_compute. reflexivity.
  - vm_compute. reflexivity.
  - intros id Hid. vm_compute in Hid. injection Hid as <-. vm_compute. lia.
  - vm_compute. reflexivity.
  - reflexivity.
  - vm_compute. discriminate.
Defined.

Lemma signed_sum_threshold_witness :
  ∃ r w1, step (PointerMove (MouseEvent 5 (-5))) pending_world = Some (r, w1) ∧
    notifications (log w1) =
      notifications (log pending_world) ++
      (if decide ((5 - 0) + (-5 - 0) < detach pending_world)%Z
       then [] else [drag_from pending_world 0 0 (5, -5)%Z]) ∧
    (detach pending_world = 2%Z → (5 - 0 = 5)%Z → (-5 - 0 = -5)%Z →
     r = Ok tt ∧ notifications (log w1) = notifications (log pending_world) ∧
     phase_of w1 = Pending ∧ defer w1 = Some 1 ∧ timers w1 = timers pending_world ∧
     dx (state w1) = Num 5 ∧ dy (state w1) = Num (-5)).
Proof.
  apply (signed_sum_threshold pending_world 1 0 0 (MouseEvent 5 (-5)) 5 (-5)).
  - vm_compute. reflexivity.
  - vm_compute. reflexivity.
  - vm_compute. reflexivity.
  - reflexivity.
Defined.

Lemma dragging_world_in_gesture : in_gesture fresh_world dragging_world.
Proof.
  exists (VData 1), 50%Z, (MouseEvent 0 0), [Elapse 50; Timeout 1].
  split; [reflexivity|]. split; [reflexivity|]. split; [reflexivity|].
  vm_compute. reflexivity.
Qed.

Lemma selection_style_round_trip_witness :
  (∀ p, body_style (drop dragging_world).2 p = body_style fresh_world p) ∧
  (∀ key, style_get (css_alias (drop dragging_world).2)
            (body_style (drop dragging_world).2) key =
          style_get (css_alias fresh_world) (body_style fresh_world) key).
Proof.
  apply (selection_style_round_trip fresh_world dragging_world PointerUp
           (drop dragging_world).1 (drop dragging_world).2).
  - exists (VData 1), 50%Z, (MouseEvent 0 0), [Elapse 50; Timeout 1].
    split; [reflexivity|]. split; [reflexivity|]. split; [reflexivity|].
    vm_compute. reflexivity.
  - reflexivity.
  - vm_compute. reflexivity.
Defined.

Lemma cleanup_with_throwing_subscriber_witness :
  ∃ w', step PointerUp faulty_dragging_world = Some (Ok tt, w') ∧
    reported w' = reported faulty_dragging_world ++ [Thrown 7] ∧
    log w' = log faulty_dragging_world ++
      [Dispatched "dnd-drop" (drop_detail PointerUp faulty_dragging_world)] ∧
    idle_shape w' ∧ phase_of w' = Idle ∧
    (∀ id, defer faulty_dragging_world = Some id → timers w' !! id = None) ∧
    (∀ p, body_style w' p = body_style faulty_world p).
Proof.
  apply (cleanup_with_throwing_subscriber faulty_world faulty_dragging_world
           PointerUp (Thrown 7)).
  - exists (VData 1), 50%Z, (MouseEvent 0 0), [Elapse 50; Timeout 1].
    split; [reflexivity|]. split; [reflexivity|]. split; [reflexivity|].
    vm_compute. reflexivity.
  - reflexivity.
  - intros _. vm_compute. reflexivity.
  - vm_compute. reflexivity.
Defined.

Lemma idle_invariant_witness :
  idle_zero (cancel pending_world).2 ∧
  active (cancel pending_world).2 = gesture_after Interrupt (active pending_world) ∧
  (active pending_world = false → needs_gesture Interrupt = true →
   (cancel pending_world).1 = Ok tt ∧ (cancel pending_world).2 = pending_world).
Proof.
  apply (idle_invariant Interrupt pending_world).
  - intros Hidle. vm_compute in Hidle. discriminate.
  - vm_compute. reflexivity.
Defined.

(** ** Further properties of the handlers *)

(** A move event without any touch point has undefined coordinates; the
    deltas are [NaN], no comparison with [NaN] holds, and so the move of a
    Pending gesture starts the drag at once, whatever the threshold. *)
Theorem move_without_pointer_starts_drag w id e :
  phase_of w = Pending → defer w = Some id → getPointer (Some e) = None →
  ∃ r w1, step (PointerMove e) w = Some (r, w1) ∧
    phase_of w1 = Dragging ∧ timers w1 = delete id (timers w) ∧
    notifications (log w1) =
      notifications (log w) ++
      [("dnd-drag", mkState (props (state w)) NaN NaN (canceled (state w)))].
Proof.
  intros Hph Hdef Hptr.
  assert (Hact : is_nullish (props (state w)) = false).
  { apply (proj1 (phase_active w)). by rewrite Hph. }
  pose proof (move_notifications e w Hact) as Hnote.
  destruct (move_active e w Hact) as (_ & Hst & _ & Hd1 & Ht1 & _).
  unfold fill in Hnote, Hst, Hd1, Ht1. rewrite Hptr in Hnote, Hst, Hd1, Ht1.
  simpl in Hnote, Hst, Hd1, Ht1. rewrite Hdef in Hnote. rewrite Hdef in Hd1. rewrite Hdef in Ht1.
  simpl. destruct (move e w) as [r w1]; simpl in *.
  exists r, w1. split; [done|].
  split; [unfold phase_of; rewrite Hst, Hd1; simpl; by rewrite Hact|]. done.
Qed.

Lemma move_without_pointer_starts_drag_witness :
  ∃ r w1, step (PointerMove (TouchEvent [] [])) pending_world = Some (r, w1) ∧
    phase_of w1 = Dragging ∧ timers w1 = delete 1 (timers pending_world) ∧
    notifications (log w1) =
      notifications (log pending_world) ++
      [("dnd-drag", mkState (props (state pending_world)) NaN NaN
                      (canceled (state pending_world)))].
Proof.
  apply (move_without_pointer_starts_drag pending_world 1 (TouchEvent [] [])).
  - vm_compute. reflexivity.
  - vm_compute. reflexivity.
  - reflexivity.
Defined.

Lemma prevented_app l1 l2 : prevented (l1 ++ l2) = prevented l1 ++ prevented l2.
Proof. apply omap_app. Qed.

(** [move] calls [preventDefault] on the event exactly when a gesture is in
    progress and the event is not a mouse event: never on a mouse move,
    never while idle. *)
Theorem move_prevents_default_on_touch_only e w :
  prevented (log (move e w).2) =
    prevented (log w) ++
    (if active w && negb (is_mouse e) then [e] else []).
Proof.
  unfold active. destruct (is_nullish (props (state w))) eqn:Hact; simpl.
  - rewrite (move_idle e w Hact). simpl. by rewrite app_nil_r.
  - destruct (move_active e w Hact) as (_ & _ & _ & _ & _ & ->).
    rewrite !prevented_app. f_equal.
    destruct (is_mouse e); simpl; by case_match.
Qed.

(** A release notifies only if the drag had started: in the Pending phase it
    is silent, whatever moves came before; in the Dragging phase it emits
    one "dnd-drop" carrying the state as the last move left it. Either way
    the module is idle afterwards. *)
Theorem drop_notifies_iff_dragging w :
  phase_of w ≠ Idle →
  ∃ r w', step PointerUp w = Some (r, w') ∧
    notifications (log w') =
      notifications (log w) ++
      (if decide (phase_of w = Dragging) then [("dnd-drop", state w)] else []) ∧
    idle_shape w' ∧ phase_of w' = Idle.
Proof.
  intros Hph. apply phase_active in Hph as Hact.
  destruct (drop_active w Hact) as (_ & Hc & Hlog).
  exists (drop w).1, (drop w).2. split; [simpl; by destruct (drop w)|].
  split; [|by apply (cleaned_idle w)].
  rewrite Hlog, notifications_app. f_equal.
  unfold phase_of. rewrite Hact. destruct (defer w); by case_decide.
Qed.

Lemma drop_notifies_iff_dragging_witness :
  ∃ r w', step PointerUp moved_world = Some (r, w') ∧
    notifications (log w') =
      notifications (log moved_world) ++
      (if decide (phase_of moved_world = Dragging)
       then [("dnd-drop", state moved_world)] else []) ∧
    idle_shape w' ∧ phase_of w' = Idle.
Proof.
  apply (drop_notifies_iff_dragging moved_world).
  vm_compute. discriminate.
Defined.

(** When the drag starts by timeout, the callback replays the pressing
    event: the "dnd-drag" it emits carries the delta (0,0) and [current] is
    set back to the pressing position, whatever moves below the threshold
    happened meanwhile. *)
Theorem timeout_drag_replays_press w id due e0 px py :
  phase_of w ≠ Idle → timers w !! id = Some (due, e0) → (due ≤ now w)%Z →
  initial w = fill e0 → pointer_at e0 px py →
  ∃ r w1, step (Timeout id) w = Some (r, w1) ∧
    notifications (log w1) =
      notifications (log w) ++
      [("dnd-drag",
        mkState (props (state w)) (Num 0) (Num 0) (canceled (state w)))] ∧
    phase_of w1 = Dragging ∧ current w1 = initial w ∧
    timers w1 !! id = None.
Proof.
  intros Hph Htim Hdue Hini Hptr. apply phase_active in Hph as Hact.
  simpl. rewrite Htim. destruct (decide (due ≤ now w)%Z) as [_|]; [|done].
  unfold timeout_callback.
  match goal with |- context [move e0 ?w] => set (w2 := w) end.
  assert (Hact2 : is_nullish (props (state w2)) = false) by done.
  pose proof (move_notifications e0 w2 Hact2) as Hnote.
  destruct (move_active e0 w2 Hact2) as (_ & Hst & Hcur & Hd1 & Ht1 & _).
  rewrite (fill_pointer e0 px py Hptr) in Hnote, Hst, Hcur, Hini.
  simpl in Hnote, Hst, Hcur, Hd1, Ht1.
  rewrite Hini in Hnote, Hst. simpl in Hnote, Hst.
  rewrite !Z.sub_diag in Hnote, Hst.
  destruct (move e0 w2) as [r w1]; simpl in *.
  exists r, w1. split; [done|]. split; [done|].
  split; [unfold phase_of; rewrite Hst, Hd1; simpl; by rewrite Hact|].
  split; [congruence|]. rewrite Ht1. apply lookup_delete_eq.
Qed.

Lemma timeout_drag_replays_press_witness :
  ∃ r w1, step (Timeout 1) moved_world = Some (r, w1) ∧
    notifications (log w1) =
      notifications (log moved_world) ++
      [("dnd-drag",
        mkState (props (state moved_world)) (Num 0) (Num 0)
          (canceled (state moved_world)))] ∧
    phase_of w1 = Dragging ∧ current w1 = initial moved_world ∧
    timers w1 !! 1 = None.
Proof.
  apply (timeout_drag_replays_press moved_world 1 50 (MouseEvent 0 0) 0 0).
  - vm_compute. discriminate.
  - vm_compute. reflexivity.
  - vm_compute. discriminate.
  - vm_compute. reflexivity.
  - reflexivity.
Defined.

(** ** Listener lists *)

Section Listeners.
Context {T : Type} `{EqDecision T}.

Lemma addEventListener_elem (l : T) ls : l ∈ addEventListener l ls.
Proof.
  unfold addEventListener. case_decide; [done|].
  apply elem_of_app. right. by left.
Qed.

Lemma addEventListener_mono (l l' : T) ls : l' ∈ ls → l' ∈ addEventListener l ls.
Proof.
  intros Hin. unfold addEventListener. case_decide; [done|].
  apply elem_of_app. by left.
Qed.

Lemma addEventListener_present (l : T) ls : l ∈ ls → addEventListener l ls = ls.
Proof. intros Hin. unfold addEventListener. by case_decide. Qed.

Lemma addEventListener_absent (l : T) ls : l ∉ ls → addEventListener l ls = ls ++ [l].
Proof. intros Hin. unfold addEventListener. by case_decide. Qed.

Lemma removeEventListener_absent (l : T) ls : l ∉ ls → removeEventListener l ls = ls.
Proof.
  induction ls as [|l' ls IH]; intros Hin; simpl; [done|].
  apply not_elem_of_cons in Hin as [Hne Hin]. case_decide; [done|].
  by rewrite IH.
Qed.

Lemma removeEventListener_app (l : T) ls rest :
  l ∉ ls → removeEventListener l (ls ++ l :: rest) = ls ++ rest.
Proof.
  induction ls as [|l' ls IH]; intros Hin; simpl.
  - by case_decide.
  - apply not_elem_of_cons in Hin as [Hne Hin]. case_decide; [done|].
    by rewrite IH.
Qed.

End Listeners.

(** [init] registers its seven listeners, and calling it again registers
    nothing more. *)
Theorem init_registers_once w :
  (∀ l, l ∈ [ mkListener "mousemove" cb_move true;
              mkListener "mouseup" cb_drop false;
              mkListener "touchmove" cb_move false;
              mkListener "touchend" cb_drop false;
              mkListener "contextmenu" cb_cancel false;
              mkListener "touchcancel" cb_cancel false;
              mkListener "touchstart" cb_cancel true ] →
        l ∈ window_listeners (init w).2) ∧
  window_listeners (init (init w).2).2 = window_listeners (init w).2.
Proof.
  assert (Hall : ∀ l, l ∈ [ mkListener "mousemove" cb_move true;
              mkListener "mouseup" cb_drop false;
              mkListener "touchmove" cb_move false;
              mkListener "touchend" cb_drop false;
              mkListener "contextmenu" cb_cancel false;
              mkListener "touchcancel" cb_cancel false;
              mkListener "touchstart" cb_cancel true ] →
        l ∈ window_listeners (init w).2).
  { intros l Hin. unfold init; simpl.
    repeat (apply elem_of_cons in Hin as [->|Hin];
            [repeat first [apply addEventListener_elem | apply addEventListener_mono]|]).
    by apply elem_of_nil in Hin. }
  split; [done|].
  remember (init w).2 as w1 eqn:Hw1. clear Hw1.
  unfold init; simpl.
  generalize dependent (window_listeners w1). intros ls Hls.
  rewrite !addEventListener_present; [done|..];
    repeat apply addEventListener_mono; apply Hls; set_solver.
Qed.

(** [draggable] with a configuration object registers the two pointer-down
    listeners of the surface under a fresh bound function and sets the
    threshold; the destructor it returns removes exactly those two, so the
    listeners of the element are as before, and calling it again changes
    nothing. *)
Theorem draggable_destructor_round_trip p element d t w :
  fn_known w →
  ∃ dtor w1, draggable p element (ConfigObject d t) w = (Ok dtor, w1) ∧
    (element, mkListener "mousedown" (cb_start (next_fn w) p (coalesce d 50%Z)) false)
      ∈ element_listeners w1 ∧
    (element, mkListener "touchstart" (cb_start (next_fn w) p (coalesce d 50%Z)) false)
      ∈ element_listeners w1 ∧
    detach w1 = coalesce t (detach w) ∧
    element_listeners (call_destructor dtor w1).2 = element_listeners w ∧
    element_listeners (call_destructor dtor (call_destructor dtor w1).2).2 =
      element_listeners w.
Proof.
  intros Hknown. unfold draggable; simpl.
  set (fn := cb_start (next_fn w) p (coalesce d 50%Z)).
  set (l1 := (element, mkListener "mousedown" fn false)).
  set (l2 := (element, mkListener "touchstart" fn false)).
  assert (Hfresh : ∀ type, (element, mkListener type fn false) ∉ element_listeners w).
  { intros type Hin. pose proof (Hknown _ _ (next_fn w) p (coalesce d 50%Z) Hin eq_refl). lia. }
  assert (H1 : l1 ∉ element_listeners w) by apply Hfresh.
  assert (H2 : l2 ∉ element_listeners w ++ [l1]).
  { intros Hin. apply elem_of_app in Hin as [Hin|Hin]; [by apply (Hfresh "touchstart")|].
    apply list_elem_of_singleton in Hin. discriminate. }
  eexists _, _. split; [reflexivity|]. simpl.
  rewrite (addEventListener_absent l1 _ H1), (addEventListener_absent l2 _ H2).
  split; [set_solver|]. split; [set_solver|]. split; [done|].
  fold l1 l2.
  assert (Hrm : removeEventListener l2
                  (removeEventListener l1 ((element_listeners w ++ [l1]) ++ [l2])) =
                element_listeners w).
  { rewrite <-app_assoc. simpl. rewrite (removeEventListener_app l1 _ _ H1).
    rewrite (removeEventListener_app l2 _ [] (Hfresh "touchstart")).
    by rewrite app_nil_r. }
  rewrite Hrm. split; [done|].
  by rewrite (removeEventListener_absent l1 _ H1),
    (removeEventListener_absent l2 _ (Hfresh "touchstart")).
Qed.

Lemma fresh_world_fn_known : fn_known fresh_world.
Proof. intros element l fn p delay Hin. by apply elem_of_nil in Hin. Qed.

Lemma draggable_destructor_round_trip_witness :
  ∃ dtor w1,
    draggable (VData 1) 0 (ConfigObject (Some 80%Z) None) fresh_world = (Ok dtor, w1) ∧
    (0, mkListener "mousedown"
          (cb_start (next_fn fresh_world) (VData 1) (coalesce (Some 80%Z) 50%Z)) false)
      ∈ element_listeners w1 ∧
    (0, mkListener "touchstart"
          (cb_start (next_fn fresh_world) (VData 1) (coalesce (Some 80%Z) 50%Z)) false)
      ∈ element_listeners w1 ∧
    detach w1 = coalesce None (detach fresh_world) ∧
    element_listeners (call_destructor dtor w1).2 = element_listeners fresh_world ∧
    element_listeners (call_destructor dtor (call_destructor dtor w1).2).2 =
      element_listeners fresh_world.
Proof.
  apply (draggable_destructor_round_trip (VData 1) 0 (Some 80%Z) None fresh_world).
  intros element l fn p delay Hin. vm_compute in Hin. by apply elem_of_nil in Hin.
Defined.

(** After [init] and its teardown on a window without other listeners, a
    context menu, a touch-cancel and a touch-start still reach [cancel],
    while moves and releases no longer reach the module. *)
Theorem cancel_listeners_survive_teardown w e :
  window_listeners w = [] →
  window_dispatch "contextmenu" e (teardown (init w).2).2 =
    (cancel (teardown (init w).2).2).2 ∧
  window_dispatch "touchcancel" e (teardown (init w).2).2 =
    (cancel (teardown (init w).2).2).2 ∧
  window_dispatch "touchstart" e (teardown (init w).2).2 =
    (cancel (teardown (init w).2).2).2 ∧
  (∀ type, type ∈ ["mousemove"; "mouseup"; "touchmove"; "touchend"] →
     window_dispatch type e (teardown (init w).2).2 = (teardown (init w).2).2).
Proof.
  intros Hnone.
  assert (Hls : window_listeners (teardown (init w).2).2 =
                  [ mkListener "contextmenu" cb_cancel false;
                    mkListener "touchcancel" cb_cancel false;
                    mkListener "touchstart" cb_cancel true ]).
  { unfold init, teardown; simpl. rewrite Hnone. vm_compute. reflexivity. }
  unfold window_dispatch. rewrite Hls. clear Hls.
  generalize ((teardown (init w).2).2). intros w1.
  split; [reflexivity|]. split; [reflexivity|]. split; [reflexivity|].
  intros type Hin. repeat (apply elem_of_cons in Hin as [->|Hin]; [reflexivity|]).
  by apply elem_of_nil in Hin.
Qed.

Lemma cancel_listeners_survive_teardown_witness :
  window_dispatch "contextmenu" (MouseEvent 1 1) (teardown (init pending_world).2).2 =
    (cancel (teardown (init pending_world).2).2).2 ∧
  window_dispatch "touchcancel" (MouseEvent 1 1) (teardown (init pending_world).2).2 =
    (cancel (teardown (init pending_world).2).2).2 ∧
  window_dispatch "touchstart" (MouseEvent 1 1) (teardown (init pending_world).2).2 =
    (cancel (teardown (init pending_world).2).2).2 ∧
  (∀ type, type ∈ ["mousemove"; "mouseup"; "touchmove"; "touchend"] →
     window_dispatch type (MouseEvent 1 1) (teardown (init pending_world).2).2 =
       (teardown (init pending_world).2).2).
Proof.
  apply (cancel_listeners_survive_teardown pending_world (MouseEvent 1 1)).
  vm_compute. reflexivity.
Defined.

(** A pointer-down with an absent subject ([null] or [undefined]) suppresses
    selection and arms a timer, yet starts no gesture: the module stays
    idle, so the release, the moves and the cancel events that follow do
    nothing, and the body keeps the suppressed style. *)
Theorem absent_subject_press p delay e w0 :
  is_nullish (props (state w0)) = true → is_nullish p = true →
  ∃ w1, step (PointerDown p delay e) w0 = Some (Ok tt, w1) ∧
    phase_of w1 = Idle ∧
    defer w1 = Some (next_timer w0) ∧
    timers w1 !! next_timer w0 = Some ((now w0 + Z.max 0 delay)%Z, e) ∧
    body_style w1 = body_style (toggleUserSelect w0) ∧
    log w1 = log w0 ∧
    (∀ i, needs_gesture i = true → step i w1 = Some (Ok tt, w1)).
Proof.
  intros Hidle Hp.
  destruct (start_idle p delay e w0 Hidle)
    as (w1 & Hstart & Hst & _ & _ & _ & Hdefer & Htimers & _ & _ & _ & Hbody & _ & _ & Hlog).
  assert (Hidle1 : is_nullish (props (state w1)) = true) by by rewrite Hst.
  exists w1. simpl. rewrite Hstart. split; [done|].
  split; [unfold phase_of; by rewrite Hidle1|]. split; [done|].
  split; [by rewrite Htimers, lookup_insert_eq|]. split; [done|]. split; [done|].
  intros i Hi. destruct i; try discriminate; simpl.
  - by rewrite move_idle.
  - unfold drop. by rewrite Hidle1.
  - unfold cancel. by rewrite Hidle1.
Qed.

Lemma absent_subject_press_witness :
  ∃ w1, step (PointerDown VNull 50 (MouseEvent 0 0)) fresh_world = Some (Ok tt, w1) ∧
    phase_of w1 = Idle ∧
    defer w1 = Some (next_timer fresh_world) ∧
    timers w1 !! next_timer fresh_world =
      Some ((now fresh_world + Z.max 0 50)%Z, MouseEvent 0 0) ∧
    body_style w1 = body_style (toggleUserSelect fresh_world) ∧
    log w1 = log fresh_world ∧
    (∀ i, needs_gesture i = true → step i w1 = Some (Ok tt, w1)).
Proof.
  apply (absent_subject_press VNull 50 (MouseEvent 0 0) fresh_world); reflexivity.
Defined.

(** During a gesture started from the initial saved style, each of the four
    user-select keys of the body reads "none"; and when the gesture ends the
    saved style is again the initial one, so the next gesture suppresses
    selection in the same way. *)
Theorem suppression_rearmed w0 w i r w' :
  in_gesture w0 w → style w0 = initial_style →
  terminal i = true → step i w = Some (r, w') →
  (∀ key, key ∈ initial_style.*1 →
     style_get (css_alias w) (body_style w) key = "none") ∧
  style w' = initial_style.
Proof.
  intros Hg Hs0 Hi Hstep.
  destruct (in_gesture_inv w0 w Hg) as (Hact & Hs & Hb & Ha & _).
  assert (Hnone : ∀ key, key ∈ initial_style.*1 →
            style_get (css_alias w) (body_style w) key = "none").
  { intros key Hkey. unfold style_get. rewrite Hb, Ha.
    unfold toggleUserSelect; simpl. rewrite Hs0.
    apply write_styles_hit.
    - intros kv Hin _. unfold initial_style in Hin.
      repeat (apply elem_of_cons in Hin as [->|Hin]; [done|]).
      by apply elem_of_nil in Hin.
    - right. apply list_elem_of_fmap in Hkey as (kv & -> & Hin). eauto. }
  split; [done|].
  destruct (terminal_step i w r w' Hact Hi Hstep) as (_ & _ & _ & Hs' & _).
  rewrite Hs'. unfold toggleUserSelect at 1; simpl. rewrite Hs.
  unfold toggleUserSelect; simpl. rewrite Hs0. simpl.
  rewrite !Hnone; [done|..]; set_solver.
Qed.

Lemma suppression_rearmed_witness :
  (∀ key, key ∈ initial_style.*1 →
     style_get (css_alias dragging_world) (body_style dragging_world) key = "none") ∧
  style (drop dragging_world).2 = initial_style.
Proof.
  apply (suppression_rearmed fresh_world dragging_world PointerUp
           (drop dragging_world).1 (drop dragging_world).2).
  - exists (VData 1), 50%Z, (MouseEvent 0 0), [Elapse 50; Timeout 1].
    split; [reflexivity|]. split; [reflexivity|]. split; [reflexivity|].
    vm_compute. reflexivity.
  - reflexivity.
  - reflexivity.
  - vm_compute. reflexivity.
Defined.

(** ** Invariants of every run *)

(** What a step does to [defer] and to the pending timers: it drops the
    module's timer, or leaves timers alone, or arms a fresh one. *)
Lemma step_timer_footprint i w r w' :
  step i w = Some (r, w') →
  (defer w' = None ∧ next_timer w' = next_timer w) ∨
  (defer w' = defer w ∧ timers w' = timers w ∧ next_timer w' = next_timer w) ∨
  (defer w' = Some (next_timer w) ∧ next_timer w' = S (next_timer w) ∧
   is_Some (timers w' !! next_timer w)).
Proof.
  intros Hstep.
  assert (Hmove : ∀ e w0, defer (move e w0).2 = None ∨
                          (defer (move e w0).2 = defer w0 ∧
                           timers (move e w0).2 = timers w0)).
  { intros e w0. destruct (is_nullish (props (state w0))) eqn:Hact.
    - right. by rewrite move_idle.
    - destruct (move_active e w0 Hact) as (_ & _ & _ & -> & -> & _).
      case_match; [by left | by right]. }
  assert (Hend : ∀ (h : M unit) w0,
            (is_nullish (props (state w0)) = false → cleaned w0 (h w0).2) →
            (is_nullish (props (state w0)) = true → h w0 = (Ok tt, w0)) →
            (defer (h w0).2 = None ∧ next_timer (h w0).2 = next_timer w0) ∨
            (defer (h w0).2 = defer w0 ∧ timers (h w0).2 = timers w0 ∧
             next_timer (h w0).2 = next_timer w0)).
  { intros h w0 Hc Hid. destruct (is_nullish (props (state w0))) eqn:Hact.
    - right. by rewrite Hid.
    - left. destruct (Hc eq_refl) as ((_ & Hd & _) & _ & Hn & _). done. }
  assert (Hcancel := Hend cancel w
            (fun Hact => proj1 (proj2 (cancel_active w Hact)))
            (fun Hid => ltac:(unfold cancel; by rewrite Hid))).
  assert (Hdrop := Hend drop w
            (fun Hact => proj1 (proj2 (drop_active w Hact)))
            (fun Hid => ltac:(unfold drop; by rewrite Hid))).
  destruct i; simpl in Hstep.
  - right; left. by simplify_eq/=.
  - right; left. unfold draggable in Hstep. destruct config; by simplify_eq/=.
  - right; left. destruct d; unfold call_destructor, teardown, undraggable in Hstep;
      by simplify_eq/=.
  - injection Hstep as Hstep. destruct (is_nullish (props (state w))) eqn:Hact.
    + destruct (start_idle p delay e w Hact)
        as (w1 & Hstart & _ & _ & _ & _ & Hd & Ht & Hn & _).
      rewrite Hstart in Hstep. simplify_eq. right; right.
      split; [done|]. split; [done|]. rewrite Ht, lookup_insert_eq. eauto.
    + unfold start in Hstep. rewrite Hact in Hstep. simpl in Hstep.
      rewrite Hstep in Hcancel. simpl in Hcancel. tauto.
  - injection Hstep as Hstep. destruct (next_timer_fixed w) as (_ & _ & _ & Hn).
    specialize (Hn e). destruct (Hmove e w) as [Hm|Hm];
      rewrite Hstep in Hm, Hn; simpl in *; tauto.
  - injection Hstep as Hstep. rewrite Hstep in Hdrop. simpl in Hdrop. tauto.
  - injection Hstep as Hstep. rewrite Hstep in Hcancel. simpl in Hcancel. tauto.
  - case_decide; [|done]. right; left. by simplify_eq/=.
  - destruct (timers w !! id) as [[due e]|]; [|done]. case_decide; [|done].
    injection Hstep as Hstep. unfold timeout_callback in Hstep. left.
    match type of Hstep with move e ?w1 = _ =>
      destruct (Hmove e w1) as [Hm|[Hm _]];
      destruct (next_timer_fixed w1) as (_ & _ & _ & Hn); specialize (Hn e) end;
      rewrite Hstep in Hm, Hn; simpl in *; done.
Qed.

Lemma step_canceled i w r w' :
  canceled (state w) = false → step i w = Some (r, w') →
  canceled (state w') = false.
Proof.
  intros Hc Hstep. destruct (terminal i) eqn:Hi.
  - destruct (is_nullish (props (state w))) eqn:Hact.
    + destruct i; try discriminate; simpl in Hstep.
      * destruct (start_idle p delay e w Hact) as (w1 & Hstart & Hst & _).
        rewrite Hstart in Hstep. simplify_eq. by rewrite Hst.
      * unfold drop in Hstep. rewrite Hact in Hstep. by simplify_eq.
      * unfold cancel in Hstep. rewrite Hact in Hstep. by simplify_eq.
    + destruct (terminal_step i w r w' Hact Hi Hstep) as ((Hst & _) & _).
      by rewrite Hst.
  - destruct i; try discriminate; simpl in Hstep.
    + by simplify_eq/=.
    + unfold draggable in Hstep. destruct config; by simplify_eq/=.
    + destruct d; unfold call_destructor, teardown, undraggable in Hstep;
        by simplify_eq/=.
    + injection Hstep as Hstep. destruct (move_frame e w) as (_ & Hcm & _).
      rewrite Hstep in Hcm. simpl in Hcm. congruence.
    + case_decide; by simplify_eq/=.
    + destruct (timers w !! id) as [[due e]|]; [|done]. case_decide; [|done].
      injection Hstep as Hstep. unfold timeout_callback in Hstep.
      match type of Hstep with move e ?w1 = _ =>
        destruct (move_frame e w1) as (_ & Hcm & _) end.
      rewrite Hstep in Hcm. simpl in Hcm. congruence.
Qed.

Lemma step_idle_zero i w r w' :
  idle_zero w → step i w = Some (r, w') → idle_zero w'.
Proof.
  intros Hzero Hstep. destruct (is_nullish (props (state w))) eqn:Hact.
  - destruct (terminal i) eqn:Hi.
    + destruct i; try discriminate; simpl in Hstep.
      * destruct (start_idle p delay e w Hact) as (w1 & Hstart & Hst & _).
        rewrite Hstart in Hstep. simplify_eq.
        unfold idle_zero. rewrite Hst. simpl. intros _. by apply Hzero.
      * unfold drop in Hstep. rewrite Hact in Hstep. by simplify_eq.
      * unfold cancel in Hstep. rewrite Hact in Hstep. by simplify_eq.
    + pose proof (state_unchanged_step i w r w' Hi Hact Hstep) as Hst.
      unfold idle_zero. by rewrite Hst.
  - destruct (terminal i) eqn:Hi.
    + destruct (terminal_step i w r w' Hact Hi Hstep) as ((Hst & _) & _).
      unfold idle_zero. by rewrite Hst.
    + destruct (step_nonterminal_frame i w r w' Hi Hstep) as (Hp & _).
      unfold idle_zero. by rewrite Hp, Hact.
Qed.

(** The effects a step adds to the log. *)
Lemma step_log i w r w' :
  canceled (state w) = false → step i w = Some (r, w') →
  ∃ new, log w' = log w ++ new ∧
    ∀ n, n ∈ notifications new → well_formed_notification n.
Proof.
  intros Hc Hstep.
  assert (Hnil : ∀ n, n ∈ notifications [] → well_formed_notification n).
  { intros n Hin. by apply elem_of_nil in Hin. }
  assert (Hsame : log w' = log w →
            ∃ new, log w' = log w ++ new ∧
              ∀ n, n ∈ notifications new → well_formed_notification n).
  { intros ->. exists []. by rewrite app_nil_r. }
  assert (Hmove : ∀ e w0, canceled (state w0) = false →
            ∃ new, log (move e w0).2 = log w0 ++ new ∧
              ∀ n, n ∈ notifications new → well_formed_notification n).
  { intros e w0 Hc0. destruct (is_nullish (props (state w0))) eqn:Hact.
    - rewrite move_idle by done. exists []. by rewrite app_nil_r.
    - destruct (move_active e w0 Hact) as (_ & _ & _ & _ & _ & ->).
      eexists. split; [reflexivity|]. intros n Hin.
      rewrite notifications_app in Hin.
      apply elem_of_app in Hin as [Hin|Hin].
      + destruct (is_mouse e); by apply elem_of_nil in Hin.
      + case_match; [|by apply elem_of_nil in Hin].
        apply list_elem_of_singleton in Hin as ->.
        unfold well_formed_notification; simpl. rewrite Hc0.
        split; [by left|]. split; [done|]. discriminate. }
  assert (Hcancel : ∃ new, log (cancel w).2 = log w ++ new ∧
              ∀ n, n ∈ notifications new → well_formed_notification n).
  { destruct (is_nullish (props (state w))) eqn:Hact.
    - unfold cancel. rewrite Hact. exists []. by rewrite app_nil_r.
    - destruct (cancel_active w Hact) as (_ & _ & ->).
      eexists. split; [reflexivity|]. intros n Hin.
      apply list_elem_of_singleton in Hin as ->.
      unfold well_formed_notification; simpl.
      split; [by right|]. split; [done|]. done. }
  destruct i; simpl in Hstep.
  - apply Hsame. by simplify_eq/=.
  - apply Hsame. unfold draggable in Hstep. destruct config; by simplify_eq/=.
  - apply Hsame. destruct d; unfold call_destructor, teardown, undraggable in Hstep;
      by simplify_eq/=.
  - injection Hstep as Hstep. destruct (is_nullish (props (state w))) eqn:Hact.
    + destruct (start_idle p delay e w Hact) as (w1 & Hstart & Hrest).
      rewrite Hstart in Hstep. simplify_eq. apply Hsame.
      by destruct Hrest as (_ & _ & _ & _ & _ & _ & _ & _ & _ & _ & _ & _ & ?).
    + unfold start in Hstep. rewrite Hact in Hstep. simpl in Hstep.
      by rewrite Hstep in Hcancel.
  - injection Hstep as Hstep. specialize (Hmove e w Hc). by rewrite Hstep in Hmove.
  - injection Hstep as Hstep. destruct (is_nullish (props (state w))) eqn:Hact.
    + unfold drop in Hstep. rewrite Hact in Hstep. apply Hsame. by simplify_eq.
    + destruct (drop_active w Hact) as (_ & _ & Hlog). rewrite Hstep in Hlog.
      eexists. split; [exact Hlog|]. intros n Hin.
      destruct (defer w); [by apply elem_of_nil in Hin|].
      apply list_elem_of_singleton in Hin as ->.
      unfold well_formed_notification; simpl. rewrite Hc, Hact.
      split; [by right|]. split; [done|]. discriminate.
  - injection Hstep as Hstep. by rewrite Hstep in Hcancel.
  - case_decide; [|done]. apply Hsame. by simplify_eq/=.
  - destruct (timers w !! id) as [[due e]|]; [|done]. case_decide; [|done].
    injection Hstep as Hstep. unfold timeout_callback in Hstep.
    match type of Hstep with move e ?w1 = _ =>
      destruct (Hmove e w1 Hc) as (new & Hlog & Hwf) end.
    rewrite Hstep in Hlog. eauto.
Qed.

(** In every world the module can reach after loading: an absent subject
    goes with zero deltas, [canceled] is false between any two steps, the
    timer held in [defer] was handed out by the host and is still pending
    there, and every notification subscribers have received is a
    "dnd-drag" or a "dnd-drop" about a present subject, with [canceled] set
    on drops only. *)
Theorem reachable_invariants alias body sub tr w :
  run tr (initial_world alias body sub) = Some w →
  idle_zero w ∧ canceled (state w) = false ∧
  defer_known w ∧ pending_alive w ∧
  (∀ n, n ∈ notifications (log w) → well_formed_notification n).
Proof.
  assert (Hgen : ∀ tr w0 w,
            (idle_zero w0 ∧ canceled (state w0) = false ∧
             defer_known w0 ∧ pending_alive w0 ∧
             (∀ n, n ∈ notifications (log w0) → well_formed_notification n)) →
            run tr w0 = Some w →
            idle_zero w ∧ canceled (state w) = false ∧
            defer_known w ∧ pending_alive w ∧
            (∀ n, n ∈ notifications (log w) → well_formed_notification n)).
  { clear. induction tr as [|i tr IH]; intros w0 w Hinv Hrun; simpl in Hrun.
    - by simplify_eq.
    - destruct (step i w0) as [[r w1]|] eqn:Hstep; [|done].
      apply (IH w1 w); [|done].
      destruct Hinv as (Hz & Hc & Hk & Ha & Hn).
      split; [by apply (step_idle_zero i w0 r)|].
      split; [by apply (step_canceled i w0 r)|].
      destruct (step_log i w0 r w1 Hc Hstep) as (new & Hlog & Hwf).
      destruct (step_timer_footprint i w0 r w1 Hstep)
        as [(Hd & _)|[(Hd & Ht & Hnx)|(Hd & Hnx & Ht)]].
      + split; [intros id; rewrite Hd; done|].
        split; [intros id; rewrite Hd; done|].
        intros n. rewrite Hlog, notifications_app, elem_of_app.
        intros [Hin|Hin]; [by apply Hn | by apply Hwf].
      + split; [intros id; rewrite Hd, Hnx; apply Hk|].
        split; [intros id; rewrite Hd, Ht; apply Ha|].
        intros n. rewrite Hlog, notifications_app, elem_of_app.
        intros [Hin|Hin]; [by apply Hn | by apply Hwf].
      + split; [intros id; rewrite Hd, Hnx; intros [= <-]; lia|].
        split; [intros id; rewrite Hd; by intros [= <-]|].
        intros n. rewrite Hlog, notifications_app, elem_of_app.
        intros [Hin|Hin]; [by apply Hn | by apply Hwf]. }
  apply Hgen. split; [done|]. split; [done|].
  split; [intros id; done|]. split; [intros id; done|].
  intros n Hin. by apply elem_of_nil in Hin.
Qed.

Lemma reachable_invariants_witness :
  idle_zero dragging_world ∧ canceled (state dragging_world) = false ∧
  defer_known dragging_world ∧ pending_alive dragging_world ∧
  (∀ n, n ∈ notifications (log dragging_world) → well_formed_notification n).
Proof.
  apply (reachable_invariants webkit_alias custom_body quiet
           [press; Elapse 50; Timeout 1] dragging_world).
  vm_compute. reflexivity.
Defined.

Lemma owned_after_clear w :
  timer_owned w →
  ∀ id, timers (clearTimeout (defer w) w) !! id = None.
Proof.
  intros Hown id. destruct (defer w) as [j|] eqn:Hd; simpl.
  - destruct (decide (j = id)) as [->|Hne]; [apply lookup_delete_eq|].
    rewrite lookup_delete_ne by done.
    destruct (timers w !! id) eqn:Hl; [|done].
    assert (defer w = Some id) by (apply Hown; eauto). congruence.
  - destruct (timers w !! id) eqn:Hl; [|done].
    assert (defer w = Some id) by (apply Hown; eauto). congruence.
Qed.

Lemma owned_none w :
  defer w = None → (∀ id, timers w !! id = None) → timer_owned w.
Proof.
  intros Hd Hnone id. rewrite Hd, Hnone. split; [by intros [? ?]|done].
Qed.

Lemma step_timer_owned i w r w' :
  present_subjects [i] = true →
  timer_owned w ∧ (is_nullish (props (state w)) = true → defer w = None) →
  step i w = Some (r, w') →
  timer_owned w' ∧ (is_nullish (props (state w')) = true → defer w' = None).
Proof.
  intros Hi [Hown Hidle] Hstep.
  assert (Hmove : ∀ e w0, timer_owned w0 →
            (is_nullish (props (state w0)) = true → defer w0 = None) →
            timer_owned (move e w0).2 ∧
            (is_nullish (props (state (move e w0).2)) = true →
             defer (move e w0).2 = None)).
  { intros e w0 Hown0 Hidle0. destruct (is_nullish (props (state w0))) eqn:Hact.
    - rewrite move_idle by done. simpl. split; [done|]. intros _. by apply Hidle0.
    - destruct (move_frame e w0) as (Hp & _).
      destruct (move_active e w0 Hact) as (_ & _ & _ & Hd & Ht & _).
      split; [|by rewrite Hp, Hact].
      case_match.
      + apply owned_none; [done|]. intros id. rewrite Ht.
        by apply owned_after_clear.
      + intros id. by rewrite Hd, Ht. }
  assert (Hend : ∀ w1, is_nullish (props (state w)) = false → cleaned w w1 →
            timer_owned w1 ∧ (is_nullish (props (state w1)) = true → defer w1 = None)).
  { intros w1 Hact ((_ & Hd & _) & Ht & _). split; [|done].
    apply owned_none; [done|]. intros id. rewrite Ht. by apply owned_after_clear. }
  destruct (terminal i) eqn:Hterm.
  - destruct (is_nullish (props (state w))) eqn:Hact.
    + destruct i; try discriminate; simpl in Hstep.
      * destruct (start_idle p delay e w Hact)
          as (w1 & Hstart & Hst & _ & _ & _ & Hd & Ht & _).
        rewrite Hstart in Hstep. simplify_eq.
        simpl in Hi. rewrite andb_true_r in Hi. apply negb_true_iff in Hi.
        split; [|by rewrite Hst; simpl; rewrite Hi].
        intros id. rewrite Hd, Ht.
        destruct (decide (next_timer w = id)) as [->|Hne].
        -- rewrite lookup_insert_eq. split; [done|eauto].
        -- rewrite lookup_insert_ne by done. split; [|congruence].
           intros Hsome. apply Hown in Hsome. rewrite (Hidle eq_refl) in Hsome.
           discriminate.
      * unfold drop in Hstep. rewrite Hact in Hstep. simplify_eq.
        split; [done|]. intros _. by apply Hidle.
      * unfold cancel in Hstep. rewrite Hact in Hstep. simplify_eq.
        split; [done|]. intros _. by apply Hidle.
    + apply Hend; [done|]. by apply (terminal_step i w r).
  - destruct i; try discriminate; simpl in Hstep.
    + by simplify_eq/=.
    + unfold draggable in Hstep. destruct config; by simplify_eq/=.
    + destruct d; unfold call_destructor, teardown, undraggable in Hstep;
        by simplify_eq/=.
    + injection Hstep as Hstep. specialize (Hmove e w Hown Hidle).
      by rewrite Hstep in Hmove.
    + case_decide; by simplify_eq/=.
    + destruct (timers w !! id) as [[due e]|] eqn:Hl; [|done]. case_decide; [|done].
      injection Hstep as Hstep. unfold timeout_callback in Hstep.
      assert (Hd : defer w = Some id) by (apply Hown; eauto).
      match type of Hstep with move e ?w1 = _ =>
        assert (Hm := Hmove e w1) end.
      rewrite Hstep in Hm. simpl in Hm. apply Hm; [|done].
      apply owned_none; [done|]. intros j. simpl.
      pose proof (owned_after_clear w Hown j) as Hc. by rewrite Hd in Hc.
Qed.

(** As long as every pointer-down carries a subject, the host never holds a
    timer of the module other than the one in [defer]: at most one timer is
    pending at any time, none while the module is idle, and the timer of a
    gesture that has begun to drag or has ended is gone. *)
Theorem one_timer_per_gesture alias body sub tr w :
  present_subjects tr = true →
  run tr (initial_world alias body sub) = Some w →
  timer_owned w ∧ (phase_of w ≠ Pending → ∀ id, timers w !! id = None).
Proof.
  intros Htr Hrun.
  assert (Hgen : ∀ tr w0 w,
            present_subjects tr = true →
            timer_owned w0 ∧ (is_nullish (props (state w0)) = true → defer w0 = None) →
            run tr w0 = Some w →
            timer_owned w ∧ (is_nullish (props (state w)) = true → defer w = None)).
  { clear. induction tr as [|i tr IH]; intros w0 w Htr Hinv Hrun; simpl in Hrun.
    - by simplify_eq.
    - destruct (step i w0) as [[r w1]|] eqn:Hstep; [|done].
      simpl in Htr. apply andb_prop in Htr as [Hi Htr].
      apply (IH w1 w Htr); [|done].
      apply (step_timer_owned i w0 r w1); [|done|done].
      simpl. by rewrite Hi. }
  destruct (Hgen tr (initial_world alias body sub) w Htr) as [Hown Hidle]; [|done|].
  { split; [|done]. intros id. simpl. rewrite lookup_empty.
    split; [by intros [? ?]|done]. }
  split; [done|]. intros Hph id.
  destruct (timers w !! id) eqn:Hl; [|done].
  assert (Hd : defer w = Some id) by (apply Hown; eauto).
  exfalso. apply Hph. unfold phase_of.
  destruct (is_nullish (props (state w))) eqn:Hact; [|by rewrite Hd].
  rewrite Hidle in Hd; done.
Qed.

Lemma one_timer_per_gesture_witness :
  timer_owned dragging_world ∧
  (phase_of dragging_world ≠ Pending → ∀ id, timers dragging_world !! id = None).
Proof.
  apply (one_timer_per_gesture webkit_alias custom_body quiet
           [press; Elapse 50; Timeout 1] dragging_world).
  - reflexivity.
  - vm_compute. reflexivity.
Defined.

(** A subscriber that throws on "dnd-drag" does not disturb [move]: the
    call returns normally, the exception is reported to the host, the
    notification has been delivered with the new delta stored in [state],
    and the gesture is still being dragged. *)
Theorem move_survives_throwing_subscriber w e px py x0 y0 err :
  phase_of w = Dragging →
  initial w = Coords.mk (Some x0) (Some y0) → pointer_at e px py →
  subscriber w "dnd-drag" (drag_from w x0 y0 (px, py)).2 = Some err →
  ∃ w1, step (PointerMove e) w = Some (Ok tt, w1) ∧
    reported w1 = reported w ++ [err] ∧
    phase_of w1 = Dragging ∧
    state w1 = (drag_from w x0 y0 (px, py)).2 ∧
    notifications (log w1) = notifications (log w) ++ [drag_from w x0 y0 (px, py)].
Proof.
  intros Hph Hini Hptr Hthrow.
  assert (Hact : is_nullish (props (state w)) = false).
  { apply (proj1 (phase_active w)). by rewrite Hph. }
  assert (Hdef : defer w = None).
  { unfold phase_of in Hph. rewrite Hact in Hph. by destruct (defer w). }
  destruct (move_reaching e w x0 y0 px py Hact Hini Hptr) as (Hd1 & _ & Hn1);
    [by rewrite Hdef|].
  destruct (move_active e w Hact) as (Hr & Hst & _).
  pose proof (move_reported e w Hact) as Hrep.
  rewrite (fill_pointer e px py Hptr), Hini, Hdef in Hrep.
  rewrite (fill_pointer e px py Hptr), Hini in Hst. simpl in Hrep, Hst.
  unfold drag_from in Hthrow. simpl in Hthrow. rewrite Hthrow in Hrep.
  simpl. destruct (move e w) as [r w1]; simpl in *. subst r.
  exists w1. split; [done|]. split; [done|].
  split; [unfold phase_of; rewrite Hst, Hd1; simpl; by rewrite Hact|]. done.
Qed.

Lemma move_survives_throwing_subscriber_witness :
  ∃ w1, step (PointerMove (MouseEvent 7 2)) throwing_dragging_world =
          Some (Ok tt, w1) ∧
    reported w1 = reported throwing_dragging_world ++ [Thrown 3] ∧
    phase_of w1 = Dragging ∧
    state w1 = (drag_from throwing_dragging_world 0 0 (7, 2)%Z).2 ∧
    notifications (log w1) =
      notifications (log throwing_dragging_world) ++
      [drag_from throwing_dragging_world 0 0 (7, 2)%Z].
Proof.
  apply (move_survives_throwing_subscriber throwing_dragging_world
           (MouseEvent 7 2) 7 2 0 0 (Thrown 3)).
  - vm_compute. reflexivity.
  - vm_compute. reflexivity.
  - reflexivity.
  - vm_compute. reflexivity.
Defined.

Section Removal.
Context {T : Type} `{EqDecision T}.

Lemma removeEventListener_subset (l l' : T) ls :
  l' ∈ removeEventListener l ls → l' ∈ ls.
Proof.
  induction ls as [|l0 ls IH]; simpl; [done|].
  case_decide; [by right|].
  intros Hin. apply elem_of_cons in Hin as [->|Hin]; [left | right; by apply IH].
Qed.

Lemma removeEventListener_NoDup (l : T) ls :
  NoDup ls → NoDup (removeEventListener l ls) ∧ l ∉ removeEventListener l ls.
Proof.
  induction 1 as [|l0 ls Hnot Hnd [IHnd IHnot]]; simpl.
  - split; [constructor | apply not_elem_of_nil].
  - case_decide as Heq.
    + subst. done.
    + split.
      * constructor; [|done]. intros Hin. apply Hnot.
        by apply (removeEventListener_subset l).
      * apply not_elem_of_cons. done.
Qed.

End Removal.

(** On a window whose listener list has no duplicates (as [addEventListener]
    keeps it), calling the teardown function a second time changes
    nothing. *)
Theorem teardown_idempotent w :
  NoDup (window_listeners w) →
  window_listeners (teardown (teardown w).2).2 = window_listeners (teardown w).2.
Proof.
  intros Hnd. unfold teardown; simpl.
  set (l1 := mkListener "mousemove" cb_move true).
  set (l2 := mkListener "mouseup" cb_drop false).
  set (l3 := mkListener "touchmove" cb_move false).
  set (l4 := mkListener "touchend" cb_drop false).
  set (l5 := mkListener "touchstart" cb_cancel false).
  destruct (removeEventListener_NoDup l1 _ Hnd) as [Hnd1 H1].
  destruct (removeEventListener_NoDup l2 _ Hnd1) as [Hnd2 H2].
  destruct (removeEventListener_NoDup l3 _ Hnd2) as [Hnd3 H3].
  destruct (removeEventListener_NoDup l4 _ Hnd3) as [Hnd4 H4].
  destruct (removeEventListener_NoDup l5 _ Hnd4) as [Hnd5 H5].
  set (ls := removeEventListener l5 _) in *.
  assert (Hkeep : ∀ l, l ∈ ls → l ∈ removeEventListener l4
            (removeEventListener l3 (removeEventListener l2
               (removeEventListener l1 (window_listeners w)))))
    by (intros l; apply removeEventListener_subset).
  rewrite (removeEventListener_absent l1 ls).
  2:{ intros Hin. apply H1. do 3 apply removeEventListener_subset in Hin as Hin.
      revert Hin. apply removeEventListener_subset. }
  rewrite (removeEventListener_absent l2 ls).
  2:{ intros Hin. apply H2. do 2 apply removeEventListener_subset in Hin as Hin.
      revert Hin. apply removeEventListener_subset. }
  rewrite (removeEventListener_absent l3 ls).
  2:{ intros Hin. apply H3. apply removeEventListener_subset in Hin as Hin.
      revert Hin. apply removeEventListener_subset. }
  rewrite (removeEventListener_absent l4 ls).
  2:{ intros Hin. apply H4. revert Hin. apply removeEventListener_subset. }
  by rewrite (removeEventListener_absent l5 ls).
Qed.

Lemma teardown_idempotent_witness :
  window_listeners (teardown (teardown (init fresh_world).2).2).2 =
  window_listeners (teardown (init fresh_world).2).2.
Proof.
  apply (teardown_idempotent (init fresh_world).2).
  apply (bool_decide_unpack _). vm_compute. reflexivity.
Defined.
